(** * The build agent: event hub, check handler and build orchestration

    A shallow embedding of the agent's Go sources.

    - [event]: [src/event/hub.go], the replayable event log with its
      subscribers.
    - [check]: [src/api/check/handler.go], the HTTP handler of the check
      interface.
    - [builder]: the build orchestration.  Its Go source is not part of the
      tree (only [src/builder/builder_test.go] is), so it is modelled from
      the written specification.
    - [builder_test]: the stream helper of [src/builder/builder_test.go].
    - [main]: the resource type configuration built by the agent's
      [main] function. *)

From stdpp Require Import base option list strings gmap.
From Stdlib Require Import Lia Ascii.

(* ===================================================================== *)
(** * Package [event] *)
(* ===================================================================== *)

Module event.

Section hub.

(** The dynamic values an [Event] interface can hold. *)
Context {V : Type}.

(** [Event] is a Go interface: a value of it is either nil ([None]) or a
    dynamic value.  The zero value of a field of type [Event] is nil. *)
Definition Event : Type := option V.

(** [*eventOccurrence]: an address in the heap of occurrences. *)
Abbreviation addr := nat (only parsing).

(** [type eventOccurrence struct { event Event; occurred chan struct{} }].
    Nothing is ever sent on [occurred]; it is only closed, so the channel
    is modelled by the flag "has been closed": a receive on it is ready
    exactly when the flag is set. *)
Record eventOccurrence : Type := mkOccurrence {
  event : Event;
  occurred : bool
}.

(** [type Hub struct { events []*eventOccurrence; closed bool; lock }].
    [events] is a slice of pointers, so the occurrences live in [heap] and
    [events] holds their addresses: a subscriber that has read [h.events[i]]
    keeps the address while the producer appends to the slice.  The lock is
    not modelled: every method body and every locked region of [Subscribe]
    is one atomic step. *)
Record Hub : Type := mkHub {
  heap : list eventOccurrence;
  events : list addr;
  closed : bool
}.

(** [&eventOccurrence{occurred: make(chan struct{})}] *)
Definition newOccurrence : eventOccurrence :=
  {| event := None; occurred := false |}.

(** [func NewHub() *Hub] *)
Definition NewHub : Hub :=
  {| heap := [newOccurrence]; events := [0]; closed := false |}.

(** [occ.event = event] through the pointer [a]; [None] is a nil
    dereference. *)
Definition set_event (a : addr) (e : Event) (hp : list eventOccurrence)
  : option (list eventOccurrence) :=
  occ ← hp !! a;
  Some (<[a := {| event := e; occurred := occurred occ |}]> hp).

(** [close(occ.occurred)] through the pointer [a]; closing a channel that
    is already closed panics ([None]). *)
Definition close_occurred (a : addr) (hp : list eventOccurrence)
  : option (list eventOccurrence) :=
  occ ← hp !! a;
  if occurred occ then None
  else Some (<[a := {| event := event occ; occurred := true |}]> hp).

(** [func (h *Hub) EmitEvent(event Event)].  [None] is a panic (index out
    of range on an empty slice, close of a closed channel). *)
Definition EmitEvent (e : Event) (h : Hub) : option Hub :=
  if closed h then Some h
  else
    occ ← last (events h);
    hp1 ← set_event occ e (heap h);
    let nextOcc := length hp1 in
    let hp2 := hp1 ++ [newOccurrence] in
    let evs := events h ++ [nextOcc] in
    hp3 ← close_occurred occ hp2;
    Some {| heap := hp3; events := evs; closed := closed h |}.

(** [func (h *Hub) Close()] *)
Definition Close (h : Hub) : option Hub :=
  if closed h then Some h
  else
    occ ← last (events h);
    hp ← close_occurred occ (heap h);
    Some {| heap := hp; events := events h; closed := true |}.

(** ** Subscribers *)

(** The destination channel as its receiver sees it: the values delivered
    so far, in order, and whether the channel has been closed.  The
    receiver is taken to be always ready, so a send never blocks. *)
Record chan : Type := mkChan {
  sent : list Event;
  chan_closed : bool
}.

Definition new_chan : chan := {| sent := []; chan_closed := false |}.

(** Where a running [Subscribe] stands. *)
Inductive pc : Type :=
| LoopHead (i : nat)
    (** top of the loop body, before [h.lock.RLock()] *)
| AwaitOccurred (i : nat) (occ : addr)
    (** at the first [select], holding [occ := h.events[i]] *)
| SendDest (i : nat) (occ : addr)
    (** at the second [select] *)
| Returned
| Panicked.

Record subscriber : Type := mkSubscriber {
  at_pc : pc;
  dest : chan
}.

(** A two-way [select] whose second case is [<-stop]: the case that fires,
    [Some true] for the stop case, or [None] when neither is ready.  When
    both are ready Go picks one at random; [prefer_stop] is that choice. *)
Definition select (first_ready stop_ready prefer_stop : bool) : option bool :=
  match first_ready, stop_ready with
  | true, true => Some prefer_stop
  | true, false => Some false
  | false, true => Some true
  | false, false => None
  end.

(** One step of [func (h *Hub) Subscribe(from uint, dest, stop)] against
    the hub as it is now.  [None]: no step is possible (blocked in a
    [select], or the call is over).  The index is a [nat]: [i++] cannot
    wrap, since [i] was below the length of a slice when it is reached. *)
Definition Subscribe_step (h : Hub) (stop prefer_stop : bool) (s : subscriber)
  : option subscriber :=
  match at_pc s with
  | LoopHead i =>
      if decide (length (events h) ≤ i) then
        (* out of bounds or reached end of event stream *)
        if chan_closed (dest s) then Some {| at_pc := Panicked; dest := dest s |}
        else Some {| at_pc := Returned;
                     dest := {| sent := sent (dest s); chan_closed := true |} |}
      else
        occ ← events h !! i;
        Some {| at_pc := AwaitOccurred i occ; dest := dest s |}
  | AwaitOccurred i a =>
      occ ← heap h !! a;
      stopped ← select (occurred occ) stop prefer_stop;
      Some {| at_pc := if stopped : bool then Returned else SendDest i a;
              dest := dest s |}
  | SendDest i a =>
      occ ← heap h !! a;
      stopped ← select true stop prefer_stop;
      if stopped : bool then Some {| at_pc := Returned; dest := dest s |}
      else if chan_closed (dest s) then
        Some {| at_pc := Panicked; dest := dest s |}
      else
        Some {| at_pc := LoopHead (S i);
                dest := {| sent := sent (dest s) ++ [event occ];
                           chan_closed := false |} |}
  | Returned | Panicked => None
  end.

(** [go h.Subscribe(from, dest, stop)] on a fresh channel. *)
Definition subscribe_from (from : nat) : subscriber :=
  {| at_pc := LoopHead from; dest := new_chan |}.

(** [Subscribe] run on its own against a hub that does not change
    meanwhile, with [stop] never firing: it runs until it returns or
    blocks, for at most [fuel] steps. *)
Fixpoint Subscribe (fuel : nat) (h : Hub) (s : subscriber) : subscriber :=
  match fuel with
  | 0 => s
  | S n =>
      match Subscribe_step h false false s with
      | Some s' => Subscribe n h s'
      | None => s
      end
  end.

(** The producer's calls, folded over a hub. *)
Inductive call : Type :=
| CallEmit (e : Event)
| CallClose.

Definition do_call (c : call) (h : Hub) : option Hub :=
  match c with
  | CallEmit e => EmitEvent e h
  | CallClose => Close h
  end.

Fixpoint do_calls (cs : list call) (h : Hub) : option Hub :=
  match cs with
  | [] => Some h
  | c :: cs' => h' ← do_call c h; do_calls cs' h'
  end.

(** ** Reading the log *)

(** Slot [i] of the log, read through the pointer: [*h.events[i]]. *)
Definition slot (h : Hub) (i : nat) : option eventOccurrence :=
  a ← events h !! i; heap h !! a.

(** The whole log, every pointer of the slice dereferenced. *)
Definition log (h : Hub) : option (list eventOccurrence) :=
  mapM (λ a, heap h !! a) (events h).

(** A slot that has been given the event [e] and signalled. *)
Definition filled (e : Event) : eventOccurrence :=
  {| event := e; occurred := true |}.

(** The hub in which the events [es] have been emitted, in this order,
    and on which [Close] has been called iff [c]: one slot per event and
    the trailing slot, allocated in order. *)
Definition hub_of (es : list Event) (c : bool) : Hub :=
  {| heap := (filled <$> es) ++ [{| event := None; occurred := c |}];
     events := seq 0 (S (length es));
     closed := c |}.

(** The events a sequence of producer calls gets into the log (those
    emitted before the first [Close]) and whether it closes the hub. *)
Fixpoint accepted (cs : list call) : list Event :=
  match cs with
  | [] => []
  | CallEmit e :: cs' => e :: accepted cs'
  | CallClose :: _ => []
  end.

Fixpoint closes (cs : list call) : bool :=
  match cs with
  | [] => false
  | CallEmit _ :: cs' => closes cs'
  | CallClose :: _ => true
  end.

(** ** The producer and one subscriber, interleaved

    Subscribers never write to the hub, so they do not influence each
    other: one subscriber next to the producer shows what any of them
    sees. *)

Record system : Type := mkSystem {
  hub : Hub;
  sub : subscriber;
  stop : bool  (** the [stop] channel is ready *)
}.

Inductive action : Type :=
| Produce (c : call)          (** the producer makes a call *)
| Advance (prefer_stop : bool) (** the subscriber takes a step, if it can *)
| FireStop.                   (** the subscriber's owner cancels *)

Definition act (a : action) (σ : system) : option system :=
  match a with
  | Produce c =>
      h' ← do_call c (hub σ);
      Some {| hub := h'; sub := sub σ; stop := stop σ |}
  | Advance p =>
      match Subscribe_step (hub σ) (stop σ) p (sub σ) with
      | Some s' => Some {| hub := hub σ; sub := s'; stop := stop σ |}
      | None => Some σ
      end
  | FireStop => Some {| hub := hub σ; sub := sub σ; stop := true |}
  end.

Fixpoint run (sched : list action) (σ : system) : option system :=
  match sched with
  | [] => Some σ
  | a :: sched' => σ' ← act a σ; run sched' σ'
  end.

(** The producer's calls of a schedule, in order. *)
Fixpoint calls_of (sched : list action) : list call :=
  match sched with
  | [] => []
  | Produce c :: sched' => c :: calls_of sched'
  | _ :: sched' => calls_of sched'
  end.

(** No cancellation in the schedule. *)
Fixpoint never_stopped (sched : list action) : bool :=
  match sched with
  | [] => true
  | FireStop :: _ => false
  | _ :: sched' => never_stopped sched'
  end.

(** A new hub with a subscriber attached at [from]. *)
Definition attach (from : nat) : system :=
  {| hub := NewHub; sub := subscribe_from from; stop := false |}.

(** ** What a subscriber from offset 0 has been sent

    [signalled es c] lists the values of the signalled slots of
    [hub_of es c]: the emitted events and, once the hub is closed, the nil
    value of the last slot. *)
Definition signalled (es : list Event) (c : bool) : list Event :=
  es ++ (if c then [None] else []).

(** The relation between the hub [hub_of es c] and a subscriber that was
    attached at offset 0 on a fresh channel; [st] tells whether [stop]
    has fired. *)
Definition sub_inv (es : list Event) (c st : bool) (s : subscriber) : Prop :=
  match at_pc s with
  | LoopHead i =>
      chan_closed (dest s) = false ∧ i ≤ length (signalled es c) ∧
      sent (dest s) = take i (signalled es c)
  | AwaitOccurred i a =>
      chan_closed (dest s) = false ∧ a = i ∧ i ≤ length es ∧
      sent (dest s) = take i (signalled es c)
  | SendDest i a =>
      chan_closed (dest s) = false ∧ a = i ∧ i < length (signalled es c) ∧
      sent (dest s) = take i (signalled es c)
  | Returned =>
      (chan_closed (dest s) = true ∧ c = true ∧
       sent (dest s) = signalled es c) ∨
      (st = true ∧ chan_closed (dest s) = false ∧
       sent (dest s) `prefix_of` signalled es c)
  | Panicked => False
  end.

(** ** Subscribers that join later, and cancellation *)

(** A hub [h] with a subscriber attached at [from] on a fresh channel. *)
Definition attach_to (h : Hub) (from : nat) : system :=
  {| hub := h; sub := subscribe_from from; stop := false |}.

(** The relation between the hub [hub_of es c] and a subscriber that was
    attached at an offset [k] inside the log on a fresh channel: it has
    been sent the values of the signalled slots from [k] up to where it
    stands.  [st] tells whether [stop] has fired. *)
Definition sub_inv_from (k : nat) (es : list Event) (c st : bool)
    (s : subscriber) : Prop :=
  match at_pc s with
  | LoopHead i =>
      chan_closed (dest s) = false ∧ k ≤ i ≤ length (signalled es c) ∧
      sent (dest s) = drop k (take i (signalled es c))
  | AwaitOccurred i a =>
      chan_closed (dest s) = false ∧ a = i ∧ k ≤ i ≤ length es ∧
      sent (dest s) = drop k (take i (signalled es c))
  | SendDest i a =>
      chan_closed (dest s) = false ∧ a = i ∧
      k ≤ i < length (signalled es c) ∧
      sent (dest s) = drop k (take i (signalled es c))
  | Returned =>
      (chan_closed (dest s) = true ∧ c = true ∧
       sent (dest s) = drop k (signalled es c)) ∨
      (st = true ∧ chan_closed (dest s) = false ∧
       sent (dest s) `prefix_of` drop k (signalled es c))
  | Panicked => False
  end.

(** The number of steps the subscriber is scheduled for. *)
Fixpoint advances (sched : list action) : nat :=
  match sched with
  | [] => 0
  | Advance _ :: sched' => S (advances sched')
  | _ :: sched' => advances sched'
  end.

(** Every [select] of the schedule picks the stop case when it is ready. *)
Fixpoint prefers_stop (sched : list action) : bool :=
  match sched with
  | [] => true
  | Advance p :: sched' => p && prefers_stop sched'
  | _ :: sched' => prefers_stop sched'
  end.

(** How many of its own steps a cancelled subscriber is from returning. *)
Definition steps_to_return (s : subscriber) : nat :=
  match at_pc s with
  | LoopHead _ => 2
  | AwaitOccurred _ _ | SendDest _ _ => 1
  | Returned | Panicked => 0
  end.

End hub.

End event.

(* ===================================================================== *)
(** * Go results and effects *)
(* ===================================================================== *)

(** A Go [(T, error)] pair of which exactly one side is meaningful. *)
Inductive result (E A : Type) : Type :=
| Ok (a : A)
| Err (e : E).

Arguments Ok {E A} a.
Arguments Err {E A} e.

(** Effectful code threads a state of type [S]. *)
Definition io (S A : Type) : Type := S → A * S.

Definition pure {S A} (a : A) : io S A := λ σ, (a, σ).

Definition andThen {S A B} (m : io S A) (k : A → io S B) : io S B :=
  λ σ, let (a, σ') := m σ in k a σ'.

(** [defer f] in a function whose remaining body is [body]. *)
Definition defer {S A} (f : io S unit) (body : io S A) : io S A :=
  andThen body (λ a, andThen f (λ _, pure a)).

Declare Scope io_scope.
Delimit Scope io_scope with io.
Notation "x ⇐ m ;; k" := (andThen m (λ x, k))
  (at level 20, m at level 99, k at level 200, only parsing) : io_scope.
Notation "m ;; k" := (andThen m (λ _, k))
  (at level 100, k at level 200, only parsing, right associativity) : io_scope.

(* ===================================================================== *)
(** * Package [check]: the HTTP handler of the check interface *)
(* ===================================================================== *)

Module check.

(** [resource.Tracker], as far as the handler uses it: [Init] with the
    resource type (its other two arguments are the constants
    [ioutil.Discard] and [nil]). *)
Class Tracker (error Resource : Type) : Type := {
  Init : string → result error Resource
}.

(** [resource.Resource], as far as the handler uses it. *)
Class Checker (error Input Resource Version : Type) : Type := {
  Check : Resource → Input → result error (list Version)
}.

Section handler.

(** [error], [builds.Input], [resource.Resource] and [builds.Version] are
    declared outside the handler's file. *)
Context {error Input Resource Version : Type}.

(** [err.Error()] *)
Context (Error : error → string).

(** The [Type] field of a [builds.Input]. *)
Context (Input_Type : Input → string).

(** [json.NewDecoder(r.Body).Decode(&input)], from the bytes of the body. *)
Context (Decode : string → result error Input).

(** What [json.NewEncoder(w).Encode(versions)] writes to [w]. *)
Context (Encode : list Version → string).

Context `{!Tracker error Resource} `{!Checker error Input Resource Version}.

Definition StatusOK : nat := 200.
Definition StatusBadRequest : nat := 400.
Definition StatusInternalServerError : nat := 500.

(** [http.ResponseWriter]: the status line, once written, and the body
    written so far. *)
Record ResponseWriter : Type := mkResponseWriter {
  status : option nat;
  body : string
}.

Inductive tracker_call : Type :=
| InitCall (type : string)
| CheckCall (r : Resource) (input : Input)
| ReleaseCall (r : Resource).

Inductive log_line : Type :=
| LogError (action : string) (err : error)
| LogInfo (action : string).

(** What the handler acts on: the response writer, the calls it has made
    on the tracker and on resources, and the lines it has logged. *)
Record world : Type := mkWorld {
  w : ResponseWriter;
  calls : list tracker_call;
  logged : list log_line
}.

Definition fresh : world :=
  {| w := {| status := None; body := "" |}; calls := []; logged := [] |}.

(** [w.WriteHeader(code)]: the first status written stands. *)
Definition WriteHeader (code : nat) : io world unit := λ σ,
  (tt, {| w := {| status := Some (default code (status (w σ)));
                  body := body (w σ) |};
          calls := calls σ; logged := logged σ |}).

(** [w.Write(b)]: writes [StatusOK] first if no status was written. *)
Definition Write (b : string) : io world unit := λ σ,
  (tt, {| w := {| status := Some (default StatusOK (status (w σ)));
                  body := body (w σ) +:+ b |};
          calls := calls σ; logged := logged σ |}).

Definition logger_Error (action : string) (err : error) : io world unit := λ σ,
  (tt, {| w := w σ; calls := calls σ;
          logged := logged σ ++ [LogError action err] |}).

Definition logger_Info (action : string) : io world unit := λ σ,
  (tt, {| w := w σ; calls := calls σ; logged := logged σ ++ [LogInfo action] |}).

Definition called (c : tracker_call) : io world unit := λ σ,
  (tt, {| w := w σ; calls := calls σ ++ [c]; logged := logged σ |}).

Definition tracker_Init (type : string) : io world (result error Resource) :=
  (called (InitCall type) ;; pure (Init type))%io.

Definition tracker_Release (r : Resource) : io world unit :=
  called (ReleaseCall r).

Definition resource_Check (r : Resource) (input : Input)
  : io world (result error (list Version)) :=
  (called (CheckCall r input) ;; pure (Check r input))%io.

(** [func (handler *Handler) ServeHTTP(w http.ResponseWriter, r *http.Request)],
    [r_body] being the bytes of [r.Body]. *)
Definition ServeHTTP (r_body : string) : io world unit :=
  (match Decode r_body with
   | Err err =>
       logger_Error "malformed-request" err ;;
       WriteHeader StatusBadRequest ;;
       Write (Error err)
   | Ok input =>
       logger_Info "checking" ;;
       r ⇐ tracker_Init (Input_Type input) ;;
       match r with
       | Err err =>
           logger_Error "failed-to-init" err ;;
           WriteHeader StatusInternalServerError ;;
           Write (Error err)
       | Ok resource =>
           defer (tracker_Release resource)
             (v ⇐ resource_Check resource input ;;
              match v with
              | Err err =>
                  WriteHeader StatusInternalServerError ;;
                  logger_Error "failed-to-check" err ;;
                  Write (Error err)
              | Ok versions => Write (Encode versions)
              end)
       end
   end)%io.

(** What the client receives once the handler has returned. *)
Definition response (σ : world) : nat * string :=
  (default StatusOK (status (w σ)), body (w σ)).

(** The errors the handler has logged, each with the action it was
    logged under. *)
Definition logged_errors (σ : world) : list (string * error) :=
  omap (λ l, match l with
             | LogError action err => Some (action, err)
             | LogInfo _ => None
             end) (logged σ).

End handler.

(** ** The handler on a concrete tracker *)

(** A tracker that knows the types ["git"] and ["time"]. *)
#[export] Instance example_tracker : Tracker string nat :=
  {| Init type := if String.eqb type "git" then Ok 1
                  else if String.eqb type "time" then Ok 2
                  else Err "unknown resource type"%string |}.

(** [Check] works on the first resource and fails on the second. *)
#[export] Instance example_checker : Checker string string nat string :=
  {| Check r input := if Nat.eqb r 1 then Ok ["v1"; "v2"]%string
                      else Err "check failed"%string |}.

(** A body is its own input type here; the body ["{"] does not decode. *)
Definition example_decode (r_body : string) : result string string :=
  if String.eqb r_body "{" then Err "unexpected EOF"%string else Ok r_body.

Definition example_encode (vs : list string) : string :=
  "[" +:+ String.concat "," vs +:+ "]".

End check.

(* ===================================================================== *)
(** * Package [builder]: the build orchestration *)
(* ===================================================================== *)

Module builder.

(** [builds.BuildSource], with the fields [builder_test.go] sets. *)
Record BuildSource : Type := mkBuildSource {
  Type_ : string;
  URI : string;
  Path : string
}.

(** [warden.ProcessSpec], with the field [builder_test.go] reads. *)
Record ProcessSpec : Type := mkProcessSpec {
  ProcessSpec_Script : string
}.

Inductive stream_source : Type :=
| ProcessStreamSourceStdout
| ProcessStreamSourceStderr.

(** A message of the process stream: a tagged chunk of output, or the
    final message that carries the exit status (a [uint32]). *)
Inductive ProcessStream : Type :=
| Chunk (source : stream_source) (data : string)
| ExitStatus (status : N).

(** Whether a path ends in the separator ["/"]. *)
Fixpoint has_trailing_separator (path : string) : bool :=
  match path with
  | EmptyString => false
  | String c EmptyString => bool_decide (c = "/"%char)
  | String _ rest => has_trailing_separator rest
  end.

(** Modelled from the spec: the path normalisation of the missing
    [Builder.Build] ("both source and destination paths normalized to have
    trailing separators ... regardless of caller-supplied trailing
    separator"): a path that does not end in the separator gets one. *)
Definition with_trailing_separator (path : string) : string :=
  if has_trailing_separator path then path else path +:+ "/".

(** The exit status a process stream carries: that of its first message
    with one. *)
Fixpoint exit_status (stream : list ProcessStream) : option N :=
  match stream with
  | [] => None
  | Chunk _ _ :: rest => exit_status rest
  | ExitStatus status :: _ => Some status
  end.

Section build.

(** Errors, container handles, the configured output resources and the
    versions they produce are the collaborators' own. *)
Context {error handle Output Version : Type}.

(** Modelled from the spec: [builds.Build], declared outside the tree,
    with the fields [builder_test.go] sets and the configured output
    resources of the BuildSpec (section 3). *)
Record builds_Build : Type := mkBuild {
  Image : string;
  Script : string;
  Source : BuildSource;
  Outputs : list Output
}.

(** Modelled from the spec: the capabilities the missing [Builder.Build]
    is given (section 6): the source fetch of the input resource type,
    the container runtime's [create], [copyIn] and [run], and the [out]
    operation of an output resource type. *)
Class Capabilities : Type := {
  Fetch : BuildSource → result error string;
  Create : string → result error handle;
  CopyIn : handle → string → string → option error;
  Run : handle → ProcessSpec → result error (nat * list ProcessStream);
  Out : handle → Output → result error (list Version)
}.

Context `{!Capabilities}.

(** Modelled from the spec: the events of a build's lifecycle that the
    missing [Builder.Build] emits into the hub (sections 3 and 4.2). *)
Inductive BuildEvent : Type :=
| InputFetched
| LogChunk (source : stream_source) (data : string)
| Exited (status : N)
| OutputProduced (v : Version).

(** Modelled from the spec: what the missing [Builder.Build] does to its
    collaborators, the log sink and the hub, in order. *)
Inductive effect : Type :=
| DidFetch (source : BuildSource)
| DidCreate (image : string)
| DidCopyIn (h : handle) (src dst : string)
| DidRun (h : handle) (spec : ProcessSpec)
| SinkWrite (source : stream_source) (data : string)
| SinkFlush
| DidOut (h : handle) (o : Output)
| HubEmit (ev : BuildEvent)
| HubClose.

Definition perform (e : effect) : io (list effect) unit := λ t, (tt, t ++ [e]).

(** Modelled from the spec: [BuildOutcome] (section 3), the terminal
    result of the missing [Builder.Build]: succeeded, failed or errored. *)
Inductive BuildOutcome : Type :=
| Succeeded
| Failed
| Errored (cause : error).

(** Modelled from the spec: the pair [(succeeded bool, err error)] the
    missing [Builder.Build] returns for an outcome (section 4.2, error
    propagation); [None] is a nil error. *)
Definition returned (o : BuildOutcome) : bool * option error :=
  match o with
  | Succeeded => (true, None)
  | Failed => (false, None)
  | Errored cause => (false, Some cause)
  end.

(** Modelled from the spec: the Running and Evaluating steps of the
    missing [Builder.Build], one consumer loop over the process stream:
    a chunk goes to the log sink and into the hub, the message with the
    exit status flushes the sink, emits the exit and ends the loop.  A
    stream that ends without an exit status is not specified: [None]. *)
Fixpoint drain (stream : list ProcessStream) : io (list effect) (option N) :=
  match stream with
  | [] => pure None
  | Chunk source data :: rest =>
      (perform (SinkWrite source data) ;;
       perform (HubEmit (LogChunk source data)) ;;
       drain rest)%io
  | ExitStatus status :: _ =>
      (perform SinkFlush ;;
       perform (HubEmit (Exited status)) ;;
       pure (Some status))%io
  end.

(** Modelled from the spec: one "output produced" event per version, as
    the ExtractingOutputs step of the missing [Builder.Build] emits. *)
Fixpoint emit_versions (vs : list Version) : io (list effect) unit :=
  match vs with
  | [] => pure tt
  | v :: rest => (perform (HubEmit (OutputProduced v)) ;; emit_versions rest)%io
  end.

(** Modelled from the spec: the ExtractingOutputs step of the missing
    [Builder.Build]: the "out" operation of every configured output, one
    event per version; the first failure ends the step with its error. *)
Fixpoint extract_outputs (h : handle) (outputs : list Output)
  : io (list effect) (option error) :=
  match outputs with
  | [] => pure None
  | o :: rest =>
      (perform (DidOut h o) ;;
       match Out h o with
       | Err e => pure (Some e)
       | Ok vs => emit_versions vs ;; extract_outputs h rest
       end)%io
  end.

(** Modelled from the spec: the state machine of the missing
    [Builder.Build] (section 4.2), from FetchingSource to the outcome.
    Every failing step ends the pipeline with [Errored]; the outputs are
    extracted only after an exit status of zero.  [None]: the process
    stream ended without an exit status. *)
Definition pipeline (build : builds_Build) : io (list effect) (option BuildOutcome) :=
  (perform (DidFetch (Source build)) ;;
   match Fetch (Source build) with
   | Err e => pure (Some (Errored e))
   | Ok fetched =>
       perform (HubEmit InputFetched) ;;
       perform (DidCreate (Image build)) ;;
       match Create (Image build) with
       | Err e => pure (Some (Errored e))
       | Ok h =>
           let src := with_trailing_separator fetched in
           let dst := with_trailing_separator (Path (Source build)) in
           perform (DidCopyIn h src dst) ;;
           match CopyIn h src dst with
           | Some e => pure (Some (Errored e))
           | None =>
               let spec := {| ProcessSpec_Script := Script build |} in
               perform (DidRun h spec) ;;
               match Run h spec with
               | Err e => pure (Some (Errored e))
               | Ok (_, stream) =>
                   exit ⇐ drain stream ;;
                   match exit with
                   | None => pure None
                   | Some 0%N =>
                       failure ⇐ extract_outputs h (Outputs build) ;;
                       match failure with
                       | Some e => pure (Some (Errored e))
                       | None => pure (Some Succeeded)
                       end
                   | Some _ => pure (Some Failed)
                   end
               end
           end
       end
   end)%io.

(** Modelled from the spec: the missing entry point [Builder.Build].  It
    runs the pipeline, closes the hub whatever the outcome, and returns
    the pair for the outcome.  The spec leaves open which boolean goes
    with the error of a failed output extraction; the model returns
    [false], as for every other error. *)
Definition Build (build : builds_Build)
  : io (list effect) (option (bool * option error)) :=
  defer (perform HubClose)
        (outcome ⇐ pipeline build ;; pure (returned <$> outcome))%io.

(** No "out" operation of the outputs fails in the container [h]. *)
Definition outputs_succeed (h : handle) (outputs : list Output) : bool :=
  forallb (λ o, match Out h o with Ok _ => true | Err _ => false end) outputs.


End build.

(** ** The collaborators and the build of [builder_test.go] *)

Inductive step : Type := AtFetch | AtCreate | AtCopyIn | AtRun.

#[export] Instance step_eq_dec : EqDecision step.
Proof. solve_decision. Defined.

(** The fakes of the test: the fetcher yields ["/path/on/disk"], the
    container is ["some-handle"], the process has pid 42 and its stream is
    primed with two chunks and the exit status [status]; the step
    [failing], if any, fails with the error ["oh no!"].  The output
    ["broken"] cannot be extracted. *)
Definition fakes (failing : option step) (status : N)
  : @Capabilities string string string string :=
  let disaster := "oh no!"%string in
  {| Fetch _ :=
       if decide (failing = Some AtFetch) then Err disaster
       else Ok "/path/on/disk"%string;
     Create _ :=
       if decide (failing = Some AtCreate) then Err disaster
       else Ok "some-handle"%string;
     CopyIn _ _ _ :=
       if decide (failing = Some AtCopyIn) then Some disaster else None;
     Run _ _ :=
       if decide (failing = Some AtRun) then Err disaster
       else Ok (42, [Chunk ProcessStreamSourceStdout "stdout";
                     Chunk ProcessStreamSourceStderr "stderr";
                     ExitStatus status]);
     Out _ o :=
       if String.eqb o "broken" then Err "out failed"%string
       else Ok ["v1"%string] |}.

Definition test_build (outputs : list string) : @builds_Build string :=
  {| Image := "some-image-name";
     Script := "./bin/test";
     Source := {| Type_ := "raw"; URI := "http://example.com/foo.tar.gz";
                  Path := "some/source/path" |};
     Outputs := outputs |}.

End builder.

(* ===================================================================== *)
(** * [builder_test.go]: the primed process stream *)
(* ===================================================================== *)

Module builder_test.

Section stream.

(** The payloads, [warden.ProcessStream] in the test. *)
Context {A : Type}.

(** A Go channel with a buffer, seen from one goroutine while no other
    goroutine uses it. *)
Record channel : Type := mkChannel {
  buffer : list A;
  capacity : nat;
  is_closed : bool
}.

(** What an operation on a channel comes to. *)
Inductive outcome (R : Type) : Type :=
| Done (r : R)
| Blocks
| Panics.

Arguments Done {R} r.
Arguments Blocks {R}.
Arguments Panics {R}.

(** [make(chan T, n)] *)
Definition make (n : nat) : channel :=
  {| buffer := []; capacity := n; is_closed := false |}.

(** [ch <- x]: with no receiver around, a send needs room in the buffer;
    a send on a closed channel panics. *)
Definition send (x : A) (ch : channel) : outcome channel :=
  if is_closed ch then Panics
  else if decide (length (buffer ch) < capacity ch) then
    Done {| buffer := buffer ch ++ [x]; capacity := capacity ch;
            is_closed := false |}
  else Blocks.

(** [close(ch)] *)
Definition close (ch : channel) : outcome channel :=
  if is_closed ch then Panics
  else Done {| buffer := buffer ch; capacity := capacity ch;
               is_closed := true |}.

(** [v, ok := <-ch]: [None] is the zero value with [ok == false]. *)
Definition receive (ch : channel) : outcome (option A * channel) :=
  match buffer ch with
  | x :: rest =>
      Done (Some x, {| buffer := rest; capacity := capacity ch;
                       is_closed := is_closed ch |})
  | [] => if is_closed ch then Done (None, ch) else Blocks
  end.

(** [for _, payload := range payloads { stream <- payload }] *)
Fixpoint send_all (payloads : list A) (stream : channel) : outcome channel :=
  match payloads with
  | [] => Done stream
  | payload :: rest =>
      match send payload stream with
      | Done stream' => send_all rest stream'
      | Blocks => Blocks
      | Panics => Panics
      end
  end.

(** [primedStream := func(payloads ...warden.ProcessStream) <-chan ...] *)
Definition primedStream (payloads : list A) : outcome channel :=
  match send_all payloads (make (length payloads)) with
  | Done stream => close stream
  | Blocks => Blocks
  | Panics => Panics
  end.

(** [n] receives in a row, with what each yields. *)
Fixpoint receives (n : nat) (ch : channel) : outcome (list (option A)) :=
  match n with
  | 0 => Done []
  | S n' =>
      match receive ch with
      | Done (v, ch') =>
          match receives n' ch' with
          | Done vs => Done (v :: vs)
          | Blocks => Blocks
          | Panics => Panics
          end
      | Blocks => Blocks
      | Panics => Panics
      end
  end.

End stream.

Arguments Done {R} r.
Arguments Blocks {R}.
Arguments Panics {R}.

End builder_test.

(* ===================================================================== *)
(** * Package [main]: the resource type configuration *)
(* ===================================================================== *)

Module main.

(** [config.ResourceType], with the fields [main] sets. *)
Record ResourceType : Type := mkResourceType {
  Name : string;
  Image : string
}.

(** [for typ, image := range resourceTypesMap]: a range over a map visits
    every entry exactly once, in an order that is not specified.
    [visited] is such an order for the map [m]. *)
Definition ranges_over (m : gmap string string)
    (visited : list (string * string)) : Prop :=
  visited ≡ₚ map_to_list m.

(** The loop of [main] that builds [resourceTypesConfig], appending one
    [config.ResourceType] per visited entry to the nil slice. *)
Definition resourceTypesConfig (visited : list (string * string))
  : list ResourceType :=
  foldl (λ config entry,
           config ++ [{| Name := fst entry; Image := snd entry |}])
        [] visited.

End main.

(* ===================================================================== *)
(** * Facts about the event hub *)
(* ===================================================================== *)

Module hub_facts.

Import event.

Section facts.

Context {V : Type}.

Implicit Types (e : @Event V) (es : list (@Event V)) (h : @Hub V).

Lemma NewHub_hub_of : @NewHub V = hub_of [] false.
Proof. reflexivity. Qed.

Lemma heap_hub_of_lt es c i e :
  es !! i = Some e → heap (hub_of es c) !! i = Some (filled e).
Proof.
  intros Hi. cbn. rewrite lookup_app_l.
  - by rewrite list_lookup_fmap, Hi.
  - rewrite length_fmap. by eapply lookup_lt_Some.
Qed.

Lemma heap_hub_of_last es c :
  heap (hub_of es c) !! length es = Some {| event := None; occurred := c |}.
Proof.
  cbn. rewrite lookup_app_r; rewrite length_fmap; [|lia].
  by rewrite Nat.sub_diag.
Qed.

Lemma events_hub_of es c i :
  i ≤ length es → events (hub_of es c) !! i = Some i.
Proof. intros Hi. cbn [events hub_of]. rewrite lookup_seq_lt; [done|lia]. Qed.

Lemma last_events_hub_of es c : last (events (hub_of es c)) = Some (length es).
Proof. cbn [events hub_of]. rewrite seq_S. by rewrite last_snoc. Qed.

Lemma length_events_hub_of es c : length (events (hub_of es c)) = S (length es).
Proof. cbn [events hub_of]. by rewrite length_seq. Qed.

Lemma lookup_snoc_last {A} (l : list A) (x : A) n :
  length l = n → (l ++ [x]) !! n = Some x.
Proof. intros <-. apply list_lookup_middle. reflexivity. Qed.

Lemma insert_snoc_last {A} (l : list A) (x y : A) n :
  length l = n → <[n := y]> (l ++ [x]) = l ++ [y].
Proof.
  intros <-. rewrite <- (Nat.add_0_r (length l)). by rewrite insert_app_r.
Qed.

Lemma insert_snoc2_last {A} (l : list A) (x y z : A) n :
  length l = n → <[n := y]> ((l ++ [x]) ++ [z]) = (l ++ [y]) ++ [z].
Proof.
  intros Hn. rewrite insert_app_l.
  - by rewrite insert_snoc_last.
  - rewrite length_app. cbn. lia.
Qed.

Lemma EmitEvent_snoc (l : list (@eventOccurrence V)) n e :
  length l = n →
  EmitEvent e {| heap := l ++ [newOccurrence]; events := seq 0 (S n);
                 closed := false |}
  = Some {| heap := (l ++ [filled e]) ++ [newOccurrence];
            events := seq 0 (S (S n)); closed := false |}.
Proof.
  intros Hn. unfold EmitEvent. cbn [closed events heap].
  rewrite seq_S, last_snoc. cbn [mbind option_bind plus].
  unfold set_event. rewrite (lookup_snoc_last _ _ _ Hn).
  cbn [mbind option_bind newOccurrence occurred].
  rewrite (insert_snoc_last _ _ _ _ Hn).
  unfold close_occurred.
  rewrite lookup_app_l by (rewrite length_app; cbn; lia).
  rewrite (lookup_snoc_last _ _ _ Hn).
  cbn [mbind option_bind occurred event].
  rewrite (insert_snoc2_last _ _ _ _ _ Hn).
  do 2 f_equal.
  rewrite length_app. cbn [length]. rewrite Hn.
  rewrite (seq_S (S n)). cbn [plus]. rewrite <- seq_S.
  f_equal. f_equal. lia.
Qed.

Lemma EmitEvent_open es e :
  EmitEvent e (hub_of es false) = Some (hub_of (es ++ [e]) false).
Proof.
  unfold hub_of. rewrite (EmitEvent_snoc (filled <$> es) (length es) e).
  - rewrite fmap_app, length_app. cbn [length fmap list_fmap].
    do 3 f_equal. lia.
  - apply length_fmap.
Qed.

Lemma EmitEvent_closed h e : closed h = true → EmitEvent e h = Some h.
Proof. intros Hc. unfold EmitEvent. by rewrite Hc. Qed.

Lemma Close_closed h : closed h = true → Close h = Some h.
Proof. intros Hc. unfold Close. by rewrite Hc. Qed.

Lemma Close_hub_of es c : Close (hub_of es c) = Some (hub_of es true).
Proof.
  destruct c; [by apply Close_closed|].
  unfold Close. cbn [closed hub_of].
  rewrite last_events_hub_of. cbn [mbind option_bind].
  unfold close_occurred. cbn [heap events hub_of].
  rewrite (lookup_snoc_last _ _ (length es)) by apply length_fmap.
  cbn [mbind option_bind occurred event].
  rewrite (insert_snoc_last _ _ _ (length es)) by apply length_fmap.
  reflexivity.
Qed.

Lemma do_calls_closed cs h : closed h = true → do_calls cs h = Some h.
Proof.
  intros Hc. induction cs as [|[e|] cs IH]; cbn; [done| |].
  - by rewrite EmitEvent_closed.
  - by rewrite Close_closed.
Qed.

Lemma do_calls_hub_of cs : ∀ es,
  do_calls cs (hub_of es false)
  = Some (hub_of (es ++ accepted cs) (closes cs)).
Proof.
  induction cs as [|[e|] cs IH]; intros es; cbn [do_calls do_call accepted closes].
  - by rewrite app_nil_r.
  - rewrite EmitEvent_open. cbn [mbind option_bind].
    rewrite IH, <- app_assoc. reflexivity.
  - rewrite Close_hub_of. cbn [mbind option_bind].
    rewrite do_calls_closed by reflexivity. by rewrite app_nil_r.
Qed.

Lemma do_calls_NewHub cs :
  do_calls cs (@NewHub V) = Some (hub_of (accepted cs) (closes cs)).
Proof. rewrite NewHub_hub_of. apply do_calls_hub_of. Qed.

Lemma accepted_emits es : accepted (CallEmit <$> es) = es.
Proof. induction es as [|e es IH]; cbn; [done|by rewrite IH]. Qed.

Lemma closes_emits es : closes (CallEmit <$> es) = false.
Proof. induction es as [|e es IH]; cbn; done. Qed.

Lemma accepted_emits_then cs es :
  accepted ((CallEmit <$> es) ++ cs) = es ++ accepted cs.
Proof. induction es as [|e es IH]; cbn; [done|by rewrite IH]. Qed.

Lemma closes_emits_then cs es : closes ((CallEmit <$> es) ++ cs) = closes cs.
Proof. induction es as [|e es IH]; cbn; done. Qed.

(** *** Steps of a subscriber against [hub_of es c] *)

Lemma step_LoopHead_in es c i d stop p :
  i ≤ length es →
  Subscribe_step (hub_of es c) stop p {| at_pc := LoopHead i; dest := d |}
  = Some {| at_pc := AwaitOccurred i i; dest := d |}.
Proof.
  intros Hi. unfold Subscribe_step. cbn [at_pc dest].
  rewrite length_events_hub_of. case_decide; [lia|].
  by rewrite events_hub_of.
Qed.

Lemma step_LoopHead_out h i d stop p :
  length (events h) ≤ i → chan_closed d = false →
  Subscribe_step h stop p {| at_pc := LoopHead i; dest := d |}
  = Some {| at_pc := Returned;
            dest := {| sent := sent d; chan_closed := true |} |}.
Proof.
  intros Hi Hd. unfold Subscribe_step. cbn [at_pc dest].
  case_decide; [|lia]. by rewrite Hd.
Qed.

Lemma step_Await_filled es c i e d p :
  es !! i = Some e →
  Subscribe_step (hub_of es c) false p {| at_pc := AwaitOccurred i i; dest := d |}
  = Some {| at_pc := SendDest i i; dest := d |}.
Proof.
  intros Hi. unfold Subscribe_step. cbn [at_pc dest].
  by rewrite (heap_hub_of_lt _ _ _ _ Hi).
Qed.

Lemma step_Await_last es c d p :
  Subscribe_step (hub_of es c) false p
    {| at_pc := AwaitOccurred (length es) (length es); dest := d |}
  = if c then Some {| at_pc := SendDest (length es) (length es); dest := d |}
    else None.
Proof.
  unfold Subscribe_step. cbn [at_pc dest].
  rewrite heap_hub_of_last. by destruct c.
Qed.

Lemma step_Send_filled es c i e d p :
  es !! i = Some e → chan_closed d = false →
  Subscribe_step (hub_of es c) false p {| at_pc := SendDest i i; dest := d |}
  = Some {| at_pc := LoopHead (S i);
            dest := {| sent := sent d ++ [e]; chan_closed := false |} |}.
Proof.
  intros Hi Hd. unfold Subscribe_step. cbn [at_pc dest].
  rewrite (heap_hub_of_lt _ _ _ _ Hi). cbn. by rewrite Hd.
Qed.

Lemma step_Send_last es c d p :
  chan_closed d = false →
  Subscribe_step (hub_of es c) false p
    {| at_pc := SendDest (length es) (length es); dest := d |}
  = Some {| at_pc := LoopHead (S (length es));
            dest := {| sent := sent d ++ [None]; chan_closed := false |} |}.
Proof.
  intros Hd. unfold Subscribe_step. cbn [at_pc dest].
  rewrite heap_hub_of_last. cbn. by rewrite Hd.
Qed.

Lemma Subscribe_S fuel h (s : @subscriber V) :
  Subscribe (S fuel) h s
  = match Subscribe_step h false false s with
    | Some s' => Subscribe fuel h s'
    | None => s
    end.
Proof. reflexivity. Qed.

Lemma Subscribe_halted fuel h (s : @subscriber V) :
  Subscribe_step h false false s = None → Subscribe fuel h s = s.
Proof. intros Hs. destruct fuel; [done|]. by rewrite Subscribe_S, Hs. Qed.

(** One turn of the loop over a slot that holds an event. *)
Lemma Subscribe_turn fuel es c i e l :
  es !! i = Some e →
  Subscribe (3 + fuel) (hub_of es c)
    {| at_pc := LoopHead i; dest := {| sent := l; chan_closed := false |} |}
  = Subscribe fuel (hub_of es c)
      {| at_pc := LoopHead (S i);
         dest := {| sent := l ++ [e]; chan_closed := false |} |}.
Proof.
  intros Hi. pose proof (lookup_lt_Some _ _ _ Hi) as Hlt.
  cbn [plus]. rewrite Subscribe_S, step_LoopHead_in by lia.
  rewrite Subscribe_S, (step_Await_filled _ _ _ _ _ _ Hi).
  by rewrite Subscribe_S, (step_Send_filled _ _ _ _ _ _ Hi).
Qed.

(** What is left to do once every event has been delivered. *)
Lemma Subscribe_end fuel es c l :
  Subscribe (4 + fuel) (hub_of es c)
    {| at_pc := LoopHead (length es);
       dest := {| sent := l; chan_closed := false |} |}
  = if c then
      {| at_pc := Returned;
         dest := {| sent := l ++ [None]; chan_closed := true |} |}
    else
      {| at_pc := AwaitOccurred (length es) (length es);
         dest := {| sent := l; chan_closed := false |} |}.
Proof.
  cbn [plus]. rewrite Subscribe_S, step_LoopHead_in by lia.
  rewrite Subscribe_S, step_Await_last. destruct c; [|done].
  rewrite Subscribe_S, step_Send_last by done.
  rewrite Subscribe_S, step_LoopHead_out;
    [|rewrite length_events_hub_of; cbn; lia|done].
  by apply Subscribe_halted.
Qed.

(** A subscriber alone with the hub: it replays the log from its offset,
    then blocks on the open slot, or, on a closed hub, delivers the value
    of the close-marker slot and closes its destination. *)
Lemma Subscribe_replay es c : ∀ n i l fuel,
  i + n = length es → 3 * n + 4 ≤ fuel →
  Subscribe fuel (hub_of es c)
    {| at_pc := LoopHead i; dest := {| sent := l; chan_closed := false |} |}
  = if c then
      {| at_pc := Returned;
         dest := {| sent := l ++ drop i es ++ [None]; chan_closed := true |} |}
    else
      {| at_pc := AwaitOccurred (length es) (length es);
         dest := {| sent := l ++ drop i es; chan_closed := false |} |}.
Proof.
  induction n as [|n IH]; intros i l fuel Hi Hfuel.
  - assert (i = length es) as -> by lia.
    replace fuel with (4 + (fuel - 4)) by lia.
    rewrite Subscribe_end, drop_all. cbn [app]. by rewrite app_nil_r.
  - destruct (es !! i) as [e|] eqn:He;
      [|apply lookup_ge_None in He; lia].
    replace fuel with (3 + (fuel - 3)) by lia.
    rewrite (Subscribe_turn _ _ _ _ _ _ He).
    rewrite (IH (S i)) by lia.
    rewrite (drop_S _ _ _ He), <- !app_assoc. reflexivity.
Qed.

(** *** Reading the log of [hub_of es c] *)

Lemma log_hub_of es c :
  log (hub_of es c)
  = Some ((filled <$> es) ++ [{| event := None; occurred := c |}]).
Proof.
  unfold log. apply mapM_Some_2, Forall2_same_length_lookup_2.
  - cbn [events hub_of].
    rewrite length_seq, length_app, length_fmap. cbn. lia.
  - intros i a occ Ha Hocc. cbn [events hub_of] in Ha.
    apply lookup_seq in Ha as [-> _]. exact Hocc.
Qed.

Lemma slot_hub_of es c i :
  slot (hub_of es c) i
  = ((filled <$> es) ++ [{| event := None; occurred := c |}]) !! i.
Proof.
  unfold slot. destruct (decide (i ≤ length es)) as [Hi|Hi].
  - by rewrite events_hub_of.
  - cbn [events hub_of]. rewrite lookup_seq_ge by lia. cbn.
    symmetry. apply lookup_ge_None.
    rewrite length_app, length_fmap. cbn. lia.
Qed.

(** A signalled slot of an open hub holds one of the emitted events. *)
Lemma slot_signalled_open es i occ :
  slot (hub_of es false) i = Some occ → occurred occ = true →
  (filled <$> es) !! i = Some occ.
Proof.
  rewrite slot_hub_of. intros Hs Ho.
  apply lookup_app_Some in Hs as [Hs|[_ Hs]]; [done|].
  destruct (i - length (filled <$> es)) as [|j]; cbn in Hs; [|done].
  injection Hs as <-. done.
Qed.

(** *** Calls on a closed hub change nothing, whatever runs next to them *)

Lemma act_hub_closed a (σ σ' : @system V) :
  closed (hub σ) = true → act a σ = Some σ' → hub σ' = hub σ.
Proof.
  intros Hc. destruct a as [c|p|]; cbn.
  - destruct c; cbn; [rewrite EmitEvent_closed by done|rewrite Close_closed by done];
      cbn; by intros [= <-].
  - destruct (Subscribe_step _ _ _ _); by intros [= <-].
  - by intros [= <-].
Qed.

Lemma act_call_closed c (σ : @system V) :
  closed (hub σ) = true → act (Produce c) σ = Some σ.
Proof.
  intros Hc. destruct σ as [h s st]. cbn in *.
  destruct c; cbn; [rewrite EmitEvent_closed by done|rewrite Close_closed by done];
    reflexivity.
Qed.

Lemma run_app sched1 sched2 (σ : @system V) :
  run (sched1 ++ sched2) σ = σ' ← run sched1 σ; run sched2 σ'.
Proof.
  revert σ. induction sched1 as [|a sched1 IH]; intros σ; cbn; [done|].
  destruct (act a σ) as [σ1|]; cbn; [apply IH|done].
Qed.

Lemma run_hub_closed sched : ∀ (σ σ' : @system V),
  closed (hub σ) = true → run sched σ = Some σ' → hub σ' = hub σ.
Proof.
  induction sched as [|a sched IH]; intros σ σ' Hc; cbn.
  - by intros [= <-].
  - destruct (act a σ) as [σ1|] eqn:Ha; cbn; [|done].
    pose proof (act_hub_closed _ _ _ Hc Ha) as Hh. intros Hr.
    rewrite <- Hh. apply IH; [by rewrite Hh|done].
Qed.

(** On a closed hub a producer call can be dropped from any schedule. *)
Lemma run_call_closed sched1 sched2 c (σ : @system V) :
  closed (hub σ) = true →
  run (sched1 ++ Produce c :: sched2) σ = run (sched1 ++ sched2) σ.
Proof.
  intros Hc. rewrite !run_app.
  destruct (run sched1 σ) as [σ1|] eqn:Hr; cbn [mbind option_bind]; [|done].
  assert (closed (hub σ1) = true) as Hc1
    by (by rewrite (run_hub_closed _ _ _ Hc Hr)).
  cbn [run]. by rewrite (act_call_closed _ _ Hc1).
Qed.

Lemma Close_Some_closed h h' : Close h = Some h' → closed h' = true.
Proof.
  unfold Close. destruct (closed h) eqn:Hc.
  - by intros [= <-].
  - destruct (last (events h)) as [a|]; cbn; [|done].
    destruct (close_occurred a (heap h)); cbn; [|done]. by intros [= <-].
Qed.

(** *** The producer and a subscriber from offset 0, interleaved *)

Lemma length_signalled es c :
  length (signalled es c) = length es + (if c then 1 else 0).
Proof. unfold signalled. rewrite length_app. by destruct c. Qed.

Lemma take_signalled es c i :
  i ≤ length es → take i (signalled es c) = take i es.
Proof. intros Hi. unfold signalled. by rewrite take_app_le. Qed.

(** Slot [i] of the heap, for an index in the slice. *)
Lemma heap_hub_of_le es c i :
  i ≤ length es →
  ∃ occ, heap (hub_of es c) !! i = Some occ ∧
         (occurred occ = true →
          i < length (signalled es c) ∧
          signalled es c !! i = Some (event occ)).
Proof.
  intros Hi. destruct (es !! i) as [e|] eqn:He.
  - exists (filled e). split; [by apply heap_hub_of_lt|]. intros _.
    pose proof (lookup_lt_Some _ _ _ He). rewrite length_signalled.
    split; [lia|]. unfold signalled. by apply lookup_app_l_Some.
  - apply lookup_ge_None in He. assert (i = length es) as -> by lia.
    exists {| event := None; occurred := c |}.
    split; [apply heap_hub_of_last|]. cbn. intros ->.
    rewrite length_signalled. split; [lia|].
    unfold signalled. by rewrite list_lookup_middle.
Qed.

Lemma sub_inv_grow es es' c' st (s : @subscriber V) :
  (∃ l, signalled es' c' = es ++ l) → length es ≤ length es' →
  sub_inv es false st s → sub_inv es' c' st s.
Proof.
  intros [l Hl] Hlen. unfold sub_inv.
  assert (length es ≤ length (signalled es' c')) as Hle
    by (rewrite length_signalled; lia).
  assert (∀ i, i ≤ length es →
    take i (signalled es false) = take i (signalled es' c')) as Htake.
  { intros i Hi. rewrite take_signalled by done.
    rewrite Hl. by rewrite take_app_le. }
  rewrite (length_signalled es false), Nat.add_0_r.
  destruct (at_pc s) as [i|i a|i a| |].
  - intros (Hd & Hi & Hs). rewrite <- Htake by done. split_and!; [done|lia|done].
  - intros (Hd & Ha & Hi & Hs). rewrite <- Htake by done. split_and!; [done..|lia|done].
  - intros (Hd & Ha & Hi & Hs). rewrite <- Htake by lia. split_and!; [done..|lia|done].
  - intros [(_ & [=] & _)|(Hst & Hd & Hs)]. right. split_and!; [done..|].
    etrans; [exact Hs|]. rewrite Hl. unfold signalled.
    rewrite app_nil_r. by apply prefix_app_r.
  - done.
Qed.

Lemma sub_inv_stop es c st (s : @subscriber V) :
  sub_inv es c st s → sub_inv es c true s.
Proof.
  unfold sub_inv. destruct (at_pc s); try done.
  intros [H|(_ & H)]; [by left|by right].
Qed.

Lemma sub_inv_step es c st p (s s' : @subscriber V) :
  sub_inv es c st s →
  Subscribe_step (hub_of es c) st p s = Some s' →
  sub_inv es c st s'.
Proof.
  unfold sub_inv at 1, Subscribe_step.
  destruct (at_pc s) as [i|i a|i a| |] eqn:Hpc.
  - intros (Hd & Hi & Hs). rewrite length_events_hub_of.
    rewrite length_signalled in Hi. case_decide as Hle.
    + rewrite Hd. intros [= <-]. left. cbn.
      destruct c; [|lia]. split_and!; [done..|].
      rewrite Hs, take_ge; [done|rewrite length_signalled; lia].
    + rewrite events_hub_of by lia. cbn. intros [= <-].
      unfold sub_inv. cbn. split_and!; [done..|lia|done].
  - intros (Hd & -> & Hi & Hs).
    destruct (heap_hub_of_le es c i Hi) as (occ & -> & Hocc). cbn.
    destruct (select _ _ _) as [[]|] eqn:Hsel; cbn; [| |done]; intros [= <-].
    + right. cbn.
      assert (st = true) as -> by (by destruct (occurred occ), st).
      split_and!; [done..|]. rewrite Hs. apply prefix_take.
    + unfold sub_inv. cbn.
      assert (occurred occ = true) as Ho
        by (by destruct (occurred occ), st, p).
      destruct (Hocc Ho) as [Hlt _]. by split_and!.
  - intros (Hd & -> & Hi & Hs).
    assert (i ≤ length es) as Hi' by (rewrite length_signalled in Hi; destruct c; lia).
    destruct (heap_hub_of_le es c i Hi') as (occ & Hh & Hocc).
    rewrite Hh. cbn [mbind option_bind].
    assert (select true st p = Some true ∧ st = true ∨
            select true st p = Some false) as [[-> ->]| ->]
      by (destruct st, p; cbn; auto); cbn [mbind option_bind].
    + intros [= <-]. right. cbn.
      split_and!; [done..|]. rewrite Hs. apply prefix_take.
    + rewrite Hd. intros [= <-]. unfold sub_inv. cbn.
      assert (occurred occ = true) as Ho.
      { destruct (es !! i) as [e|] eqn:He.
        - rewrite (heap_hub_of_lt _ _ _ _ He) in Hh. by injection Hh as <-.
        - apply lookup_ge_None in He. assert (i = length es) as -> by lia.
          rewrite heap_hub_of_last in Hh. injection Hh as <-. cbn.
          rewrite length_signalled in Hi. destruct c; [done|lia]. }
      destruct (Hocc Ho) as [_ Hv].
      split_and!; [done|lia|]. by rewrite Hs, (take_S_r _ _ _ Hv).
  - done.
  - done.
Qed.

Lemma act_inv_closed a es (σ0 : @system V) :
  hub σ0 = hub_of es true → sub_inv es true (stop σ0) (sub σ0) →
  ∃ σ, act a σ0 = Some σ ∧ hub σ = hub_of es true ∧
       stop σ = (stop σ0 || match a with FireStop => true | _ => false end)%bool ∧
       sub_inv es true (stop σ) (sub σ).
Proof.
  intros Hh Hs. destruct a as [c|p|].
  - exists σ0. rewrite act_call_closed by (by rewrite Hh).
    by rewrite orb_false_r.
  - cbn. rewrite Hh.
    destruct (Subscribe_step _ _ _ _) as [s'|] eqn:Hstep.
    + eexists. split; [done|]. cbn. rewrite orb_false_r.
      split_and!; [done..|]. by eapply sub_inv_step.
    + exists σ0. by rewrite orb_false_r.
  - eexists. split; [done|]. cbn. rewrite orb_true_r.
    split_and!; [done..|]. by eapply sub_inv_stop.
Qed.

Lemma run_inv_closed sched : ∀ es (σ0 : @system V),
  hub σ0 = hub_of es true → sub_inv es true (stop σ0) (sub σ0) →
  ∃ σ, run sched σ0 = Some σ ∧ hub σ = hub_of es true ∧
       stop σ = (stop σ0 || negb (never_stopped sched))%bool ∧
       sub_inv es true (stop σ) (sub σ).
Proof.
  induction sched as [|a sched IH]; intros es σ0 Hh Hs.
  - exists σ0. cbn. by rewrite orb_false_r.
  - destruct (act_inv_closed a es σ0 Hh Hs) as (σ1 & Ha & Hh1 & Hst1 & Hs1).
    destruct (IH es σ1 Hh1 Hs1) as (σ & Hr & Hh2 & Hst2 & Hs2).
    exists σ. cbn [run]. rewrite Ha. cbn [mbind option_bind].
    split_and!; [done..| |done].
    rewrite Hst2, Hst1. destruct a; cbn; by rewrite ?orb_false_r, ?orb_true_r.
Qed.

Lemma run_inv sched : ∀ es (σ0 : @system V),
  hub σ0 = hub_of es false → sub_inv es false (stop σ0) (sub σ0) →
  ∃ σ, run sched σ0 = Some σ ∧
       hub σ = hub_of (es ++ accepted (calls_of sched)) (closes (calls_of sched)) ∧
       stop σ = (stop σ0 || negb (never_stopped sched))%bool ∧
       sub_inv (es ++ accepted (calls_of sched)) (closes (calls_of sched))
               (stop σ) (sub σ).
Proof.
  induction sched as [|a sched IH]; intros es σ0 Hh Hs.
  - exists σ0. cbn. by rewrite app_nil_r, orb_false_r.
  - destruct a as [[e|]|p|];
      cbn [run act do_call calls_of accepted closes never_stopped].
    + rewrite Hh, EmitEvent_open. cbn [mbind option_bind].
      destruct (IH (es ++ [e])
                  {| hub := hub_of (es ++ [e]) false; sub := sub σ0;
                     stop := stop σ0 |})
        as (σ & Hr & Hh' & Hst & Hs'); [done| |].
      * cbn. eapply sub_inv_grow; [..|exact Hs].
        -- exists [e]. unfold signalled. by rewrite app_nil_r.
        -- rewrite length_app. lia.
      * exists σ. rewrite <- app_assoc in Hh', Hs'. by split_and!.
    + rewrite Hh, Close_hub_of. cbn [mbind option_bind].
      destruct (run_inv_closed sched es
                  {| hub := hub_of es true; sub := sub σ0; stop := stop σ0 |})
        as (σ & Hr & Hh' & Hst & Hs'); [done| |].
      * cbn. eapply sub_inv_grow; [..|exact Hs]; [|done].
        by exists [None].
      * exists σ. rewrite app_nil_r. by split_and!.
    + destruct (Subscribe_step _ _ _ _) as [s'|] eqn:Hstep;
        cbn [mbind option_bind].
      * destruct (IH es {| hub := hub σ0; sub := s'; stop := stop σ0 |})
          as (σ & Hr & Hh' & Hst & Hs'); [done| |].
        -- cbn. rewrite Hh in Hstep. by eapply sub_inv_step.
        -- exists σ. by split_and!.
      * by apply IH.
    + destruct (IH es {| hub := hub σ0; sub := sub σ0; stop := true |})
        as (σ & Hr & Hh' & Hst & Hs'); [done| |].
      * cbn. by eapply sub_inv_stop.
      * exists σ. cbn in Hst. rewrite orb_true_r. by split_and!.
Qed.

(** The stream of a subscriber that satisfies the invariant. *)
Lemma sub_inv_sent es c st (s : @subscriber V) :
  sub_inv es c st s →
  sent (dest s) `prefix_of` signalled es c ∧
  (chan_closed (dest s) = true →
   c = true ∧ at_pc s = Returned ∧ sent (dest s) = es ++ [None]).
Proof.
  unfold sub_inv. destruct (at_pc s) as [i|i a|i a| |].
  - intros (Hd & _ & ->). split; [apply prefix_take|congruence].
  - intros (Hd & _ & _ & ->). split; [apply prefix_take|congruence].
  - intros (Hd & _ & _ & ->). split; [apply prefix_take|congruence].
  - intros [(Hd & -> & ->)|(_ & Hd & Hs)]; [done|].
    split; [done|congruence].
  - done.
Qed.

(** Once the hub is closed, a subscriber that is not cancelled runs to
    the end of the slice and closes its destination. *)
Lemma sub_inv_finishes es (s : @subscriber V) fuel :
  sub_inv es true false s → 3 * length es + 6 ≤ fuel →
  Subscribe fuel (hub_of es true) s
  = {| at_pc := Returned;
       dest := {| sent := es ++ [None]; chan_closed := true |} |}.
Proof.
  assert (∀ i d f, chan_closed d = false → i ≤ S (length es) →
            sent d = take i (signalled es true) → 3 * length es + 4 ≤ f →
            Subscribe f (hub_of es true) {| at_pc := LoopHead i; dest := d |}
            = {| at_pc := Returned;
                 dest := {| sent := es ++ [None]; chan_closed := true |} |})
    as Hloop.
  { intros i [l dc] f Hd Hi Hs Hf. cbn in Hd, Hs. subst dc l.
    destruct (decide (i ≤ length es)) as [Hle|Hgt].
    - rewrite (Subscribe_replay es true (length es - i) i) by lia.
      rewrite take_signalled by done.
      by rewrite app_assoc, take_drop.
    - replace f with (S (f - 1)) by lia.
      rewrite Subscribe_S, step_LoopHead_out;
        [|rewrite length_events_hub_of; lia|done].
      rewrite Subscribe_halted by done. cbn.
      rewrite take_ge; [done|rewrite length_signalled; lia]. }
  assert (∀ i d f, chan_closed d = false → i ≤ length es →
            sent d = take i (signalled es true) → 3 * length es + 5 ≤ f →
            Subscribe f (hub_of es true) {| at_pc := SendDest i i; dest := d |}
            = {| at_pc := Returned;
                 dest := {| sent := es ++ [None]; chan_closed := true |} |})
    as Hsend.
  { intros i d f Hd Hi Hs Hf. replace f with (S (f - 1)) by lia.
    rewrite Subscribe_S. destruct (es !! i) as [e|] eqn:He.
    - rewrite (step_Send_filled _ _ _ _ _ _ He Hd).
      apply Hloop; cbn; [done| | |lia].
      + apply lookup_lt_Some in He. lia.
      + rewrite Hs. symmetry. apply take_S_r. unfold signalled.
        by apply lookup_app_l_Some.
    - apply lookup_ge_None in He. assert (i = length es) as -> by lia.
      rewrite (step_Send_last _ _ _ _ Hd).
      apply Hloop; cbn; [done|lia| |lia].
      rewrite Hs. symmetry. apply take_S_r. unfold signalled.
      by rewrite list_lookup_middle. }
  unfold sub_inv. destruct s as [[i|i a|i a| |] d]; cbn [at_pc dest].
  - intros (Hd & Hi & Hs) Hf. rewrite length_signalled in Hi.
    apply Hloop; [done|lia|done|lia].
  - intros (Hd & -> & Hi & Hs) Hf. replace fuel with (S (fuel - 1)) by lia.
    rewrite Subscribe_S. destruct (es !! i) as [e|] eqn:He.
    + rewrite (step_Await_filled _ _ _ _ _ _ He).
      apply Hsend; [done..|lia].
    + apply lookup_ge_None in He. assert (i = length es) as -> by lia.
      rewrite step_Await_last. apply Hsend; [done..|lia].
  - intros (Hd & -> & Hi & Hs) Hf. rewrite length_signalled in Hi.
    apply Hsend; [done|lia|done|lia].
  - intros [(Hd & _ & Hs)|([=] & _)] Hf. rewrite Subscribe_halted by done.
    destruct d as [l dc]. cbn in *. by subst.
  - done.
Qed.

(** ** The claims about the hub *)

(** C3.  After [NewHub] and any sequence of [EmitEvent] calls made before
    [Close], the log is one signalled slot per emitted event, each holding
    its event, followed by exactly one unsignalled slot, the last one.
    And whatever calls of [EmitEvent] and [Close] follow a reachable hub,
    they do not panic, the slice of slots only grows at its end, and every
    signalled slot stays at its index with its contents unchanged. *)
Theorem C3_one_open_slot_and_filled_slots_kept
    (es : list (@Event V)) (before later : list (@call V)) :
  (∃ h, do_calls (CallEmit <$> es) NewHub = Some h ∧
        closed h = false ∧
        log h = Some ((filled <$> es) ++ [newOccurrence]) ∧
        ∀ i occ, slot h i = Some occ →
                 (occurred occ = false ↔ i = length es)) ∧
  (∃ h h', do_calls before NewHub = Some h ∧
           do_calls later h = Some h' ∧
           events h `prefix_of` events h' ∧
           ∀ i occ, slot h i = Some occ → occurred occ = true →
                    slot h' i = Some occ).
Proof.
  split.
  - exists (hub_of es false).
    rewrite do_calls_NewHub, accepted_emits, closes_emits.
    split; [done|]. split; [done|]. split; [apply log_hub_of|].
    intros i occ. rewrite slot_hub_of. intros Hs.
    apply lookup_app_Some in Hs as [Hs|[Hle Hs]].
    + pose proof (lookup_lt_Some _ _ _ Hs) as Hlt.
      rewrite length_fmap in Hlt.
      apply list_lookup_fmap_Some in Hs as (e & -> & _). cbn.
      split; [done|lia].
    + rewrite length_fmap in Hle, Hs.
      destruct (i - length es) as [|j] eqn:Hj; cbn in Hs; [|done].
      injection Hs as <-. cbn. split; [lia|done].
  - exists (hub_of (accepted before) (closes before)).
    rewrite do_calls_NewHub.
    destruct (closes before) eqn:Hc.
    + exists (hub_of (accepted before) true).
      rewrite do_calls_closed by done. by repeat split.
    + exists (hub_of (accepted before ++ accepted later) (closes later)).
      rewrite do_calls_hub_of. repeat split.
      * cbn [events hub_of]. rewrite length_app.
        replace (S (length (accepted before) + length (accepted later)))
          with (S (length (accepted before)) + length (accepted later)) by lia.
        rewrite seq_app. by apply prefix_app_r.
      * intros i occ Hs Ho.
        pose proof (slot_signalled_open _ _ _ Hs Ho) as Hi.
        rewrite slot_hub_of, fmap_app, <- app_assoc.
        by apply lookup_app_l_Some.
Qed.

(** C5.  On a hub on which [Close] has been called, [EmitEvent] returns
    without a panic and leaves the hub as it was, slot for slot; and in any
    run of the producer next to a subscriber, whatever the subscriber's
    state, an [EmitEvent] made once the hub is closed can be dropped from
    the schedule without changing anything the subscriber is sent. *)
Theorem C5_emit_after_close_is_inert (h h' : @Hub V) (e : Event) :
  Close h = Some h' →
  EmitEvent e h' = Some h' ∧
  ∀ sched1 sched2 s st,
    run (sched1 ++ Produce (CallEmit e) :: sched2)
        {| hub := h'; sub := s; stop := st |}
    = run (sched1 ++ sched2) {| hub := h'; sub := s; stop := st |}.
Proof.
  intros Hc%Close_Some_closed. split.
  - by apply EmitEvent_closed.
  - intros sched1 sched2 s st. by apply run_call_closed.
Qed.

(** C7.  [Close] is idempotent: a second call returns without a panic and
    leaves the hub, its slots and their signals as the first call left
    them; and in any run of the producer next to a subscriber, a further
    [Close] can be dropped from the schedule without changing anything the
    subscriber observes. *)
Theorem C7_Close_idempotent (h h' : @Hub V) :
  Close h = Some h' →
  Close h' = Some h' ∧
  ∀ sched1 sched2 s st,
    run (sched1 ++ Produce CallClose :: sched2)
        {| hub := h'; sub := s; stop := st |}
    = run (sched1 ++ sched2) {| hub := h'; sub := s; stop := st |}.
Proof.
  intros Hc%Close_Some_closed. split.
  - by apply Close_closed.
  - intros sched1 sched2 s st. by apply run_call_closed.
Qed.

(** C6.  [Subscribe] with an offset greater than the length of the log
    ends the stream at once: its first step closes the destination, with
    nothing delivered, and returns, whatever [stop] does. *)
Theorem C6_subscribe_past_end (h : @Hub V) (from : nat) (stop p : bool) :
  length (events h) < from →
  Subscribe_step h stop p (subscribe_from from)
  = Some {| at_pc := Returned;
            dest := {| sent := []; chan_closed := true |} |}
  ∧ ∀ fuel, Subscribe (S fuel) h (subscribe_from from)
            = {| at_pc := Returned;
                 dest := {| sent := []; chan_closed := true |} |}.
Proof.
  intros Hlt.
  assert (∀ st q, Subscribe_step h st q (subscribe_from from)
    = Some {| at_pc := Returned;
              dest := {| sent := []; chan_closed := true |} |}) as Hstep.
  { intros st q. unfold subscribe_from.
    rewrite step_LoopHead_out; [done|lia|done]. }
  split; [apply Hstep|].
  intros fuel. rewrite Subscribe_S, Hstep. by apply Subscribe_halted.
Qed.


(** C1 (what the code does).  On a hub on which the events [es] are
    emitted and [Close] is then called, [Subscribe] from offset 0 returns
    with its destination closed, but it has sent [N+1] values: the [N]
    events in emission order and then the nil value of the close-marker
    slot, which is sent like an event before the loop reaches the end of
    the slice. *)
Theorem C1_close_marker_value_is_sent (es : list (@Event V)) (extra : nat) :
  ∃ h, do_calls ((CallEmit <$> es) ++ [CallClose]) NewHub = Some h ∧
       Subscribe (3 * length es + 4 + extra) h (subscribe_from 0)
       = {| at_pc := Returned;
            dest := {| sent := es ++ [None]; chan_closed := true |} |}.
Proof.
  exists (hub_of es true).
  rewrite do_calls_NewHub, accepted_emits_then, closes_emits_then.
  cbn [accepted closes]. rewrite app_nil_r. split; [done|].
  unfold subscribe_from, new_chan.
  by rewrite (Subscribe_replay es true (length es) 0 []) by lia.
Qed.

(** Every interleaving of the producer with a subscriber attached at
    offset 0 on a new hub: the producer never panics; the subscriber has
    been sent a prefix of the values of the signalled slots; if its
    destination is closed, the hub is closed and it has been sent the
    emitted events followed by the nil value of the close-marker slot; and
    when the hub has been closed and the subscriber was not cancelled, it
    gets there in a bounded number of its own steps. *)
Theorem Subscribe_from_0_any_schedule (sched : list (@action V)) :
  let es := accepted (calls_of sched) in
  let c := closes (calls_of sched) in
  ∃ σ, run sched (attach 0) = Some σ ∧
       hub σ = hub_of es c ∧
       sent (dest (sub σ)) `prefix_of` signalled es c ∧
       (chan_closed (dest (sub σ)) = true →
        c = true ∧ sent (dest (sub σ)) = es ++ [None]) ∧
       (c = true → never_stopped sched = true → ∀ extra,
        Subscribe (3 * length es + 6 + extra) (hub σ) (sub σ)
        = {| at_pc := Returned;
             dest := {| sent := es ++ [None]; chan_closed := true |} |}).
Proof.
  intros es c.
  destruct (run_inv sched [] (attach 0)) as (σ & Hr & Hh & Hst & Hs).
  { reflexivity. }
  { cbn. by split_and!. }
  cbn [app] in Hh, Hs. fold es c in Hh, Hs.
  exists σ. destruct (sub_inv_sent _ _ _ _ Hs) as [Hpre Hcl].
  split_and!; [done..| |].
  - intros Hd. by destruct (Hcl Hd) as (? & _ & ?).
  - intros Hc Hns extra. rewrite Hh, Hc.
    apply sub_inv_finishes; [|lia].
    rewrite Hc in Hs. rewrite Hst, Hns in Hs. exact Hs.
Qed.

End facts.

(** ** The claims at concrete inputs *)

(** Scenario D: three events, then [Close].  A subscriber from offset 0
    is sent the three events and then a nil value before its destination
    is closed; a subscriber that joins at offset 3 after the close is sent
    one nil value before its destination is closed. *)
Example scenario_D :
  ∃ h, do_calls [CallEmit (Some "e1"); CallEmit (Some "e2");
                 CallEmit (Some "e3"); CallClose] NewHub = Some h ∧
       Subscribe 20 h (subscribe_from 0)
       = {| at_pc := Returned;
            dest := {| sent := [Some "e1"; Some "e2"; Some "e3"; None];
                       chan_closed := true |} |} ∧
       Subscribe 20 h (subscribe_from 3)
       = {| at_pc := Returned;
            dest := {| sent := [None]; chan_closed := true |} |}.
Proof. eexists. split; [reflexivity|]. split; reflexivity. Qed.

Lemma C3_witness :
  ∃ h h' : @Hub string,
    do_calls [CallEmit (Some "a")] NewHub = Some h ∧
    do_calls [CallClose; CallEmit (Some "b")] h = Some h' ∧
    slot h 0 = Some (filled (Some "a")) ∧
    slot h' 0 = Some (filled (Some "a")).
Proof.
  destruct (C3_one_open_slot_and_filled_slots_kept
              [] [CallEmit (Some "a")] [CallClose; CallEmit (Some "b")])
    as [_ (h & h' & H1 & H2 & _ & Hkept)].
  exists h, h'. split; [exact H1|]. split; [exact H2|].
  assert (slot h 0 = Some (filled (Some "a"))) as Hs.
  { vm_compute in H1. injection H1 as <-. reflexivity. }
  split; [exact Hs|]. apply Hkept; [exact Hs|reflexivity].
Defined.


Lemma C5_witness :
  Close (@NewHub string) = Some (hub_of [] true) ∧
  EmitEvent (Some "late") (hub_of [] true) = Some (hub_of [] true).
Proof.
  split; [reflexivity|].
  apply (C5_emit_after_close_is_inert NewHub (hub_of [] true) (Some "late")).
  reflexivity.
Defined.

Lemma C6_witness :
  Subscribe_step (@NewHub string) false false (subscribe_from 2)
  = Some {| at_pc := Returned;
            dest := {| sent := []; chan_closed := true |} |}.
Proof.
  apply (C6_subscribe_past_end (@NewHub string) 2 false false).
  cbn. lia.
Defined.

Lemma C7_witness :
  Close (hub_of [Some "e1"] false) = Some (hub_of [Some "e1"] true) ∧
  Close (hub_of [Some "e1"] true) = Some (hub_of [Some "e1"] true).
Proof.
  split; [reflexivity|].
  apply (C7_Close_idempotent (hub_of [Some "e1"] false)).
  reflexivity.
Defined.

(** ** Subscribers that join later *)

Section late.

Context {V : Type}.

Implicit Types (e : @Event V) (es : list (@Event V)) (h : @Hub V).

Lemma hub_of_inj es es' c c' : hub_of es c = hub_of es' c' → es = es' ∧ c = c'.
Proof.
  intros Heq. assert (c = c') as <- by exact (f_equal closed Heq).
  split; [|done]. apply (f_equal heap) in Heq. cbn in Heq.
  apply app_inj_2 in Heq as [Heq _]; [|done].
  apply (f_equal (fmap event)) in Heq.
  rewrite <- !list_fmap_compose in Heq.
  by rewrite !list_fmap_id in Heq.
Qed.

(** The hub of a run is the hub its producer's calls give. *)
Lemma run_hub_calls sched : ∀ (σ σ' : @system V),
  run sched σ = Some σ' →
  do_calls (calls_of sched) (hub σ) = Some (hub σ') ∧
  stop σ' = (stop σ || negb (never_stopped sched))%bool.
Proof.
  induction sched as [|a sched IH]; intros σ σ'; cbn [run].
  - intros [= <-]. cbn. by rewrite orb_false_r.
  - destruct (act a σ) as [σ1|] eqn:Ha; cbn [mbind option_bind]; [|done].
    intros Hr. destruct (IH _ _ Hr) as [Hc Hs]. rewrite Hs.
    destruct a as [c|p|]; cbn in Ha |- *.
    + destruct (do_call c (hub σ)) as [h1|]; cbn in Ha; [|done].
      injection Ha as <-. cbn in *. done.
    + destruct (Subscribe_step _ _ _ _); injection Ha as <-; done.
    + injection Ha as <-. cbn in *. by rewrite orb_true_r.
Qed.

Lemma prefix_drop_take {A} (l : list A) k i :
  drop k (take i l) `prefix_of` drop k l.
Proof.
  rewrite <- (take_drop i l) at 2. rewrite drop_app.
  by apply prefix_app_r.
Qed.

Lemma sub_inv_from_grow k es es' c' st (s : @subscriber V) :
  (∃ l, signalled es' c' = es ++ l) → length es ≤ length es' →
  sub_inv_from k es false st s → sub_inv_from k es' c' st s.
Proof.
  intros [l Hl] Hlen. unfold sub_inv_from.
  assert (length es ≤ length (signalled es' c')) as Hle
    by (rewrite length_signalled; lia).
  assert (∀ i, i ≤ length es →
    take i (signalled es false) = take i (signalled es' c')) as Htake.
  { intros i Hi. rewrite take_signalled by done.
    rewrite Hl. by rewrite take_app_le. }
  rewrite (length_signalled es false), Nat.add_0_r.
  destruct (at_pc s) as [i|i a|i a| |].
  - intros (Hd & Hi & Hs). rewrite <- Htake by lia. split_and!; [done|lia..|done].
  - intros (Hd & Ha & Hi & Hs). rewrite <- Htake by lia. split_and!; [done..|lia|lia|done].
  - intros (Hd & Ha & Hi & Hs). rewrite <- Htake by lia. split_and!; [done..|lia|lia|done].
  - intros [(_ & [=] & _)|(Hst & Hd & Hs)]. right. split_and!; [done..|].
    etrans; [exact Hs|]. rewrite Hl. unfold signalled.
    rewrite app_nil_r, drop_app. by apply prefix_app_r.
  - done.
Qed.

Lemma sub_inv_from_stop k es c st (s : @subscriber V) :
  sub_inv_from k es c st s → sub_inv_from k es c true s.
Proof.
  unfold sub_inv_from. destruct (at_pc s); try done.
  intros [H|(_ & H)]; [by left|by right].
Qed.

Lemma sub_inv_from_step k es c st p (s s' : @subscriber V) :
  sub_inv_from k es c st s →
  Subscribe_step (hub_of es c) st p s = Some s' →
  sub_inv_from k es c st s'.
Proof.
  unfold sub_inv_from at 1, Subscribe_step.
  destruct (at_pc s) as [i|i a|i a| |] eqn:Hpc.
  - intros (Hd & Hi & Hs). rewrite length_events_hub_of.
    rewrite length_signalled in Hi. case_decide as Hle.
    + rewrite Hd. intros [= <-]. left. cbn.
      destruct c; [|lia]. split_and!; [done..|].
      rewrite Hs, take_ge; [done|rewrite length_signalled; lia].
    + rewrite events_hub_of by lia. cbn. intros [= <-].
      unfold sub_inv_from. cbn. split_and!; [done..|lia|lia|done].
  - intros (Hd & -> & Hi & Hs).
    destruct (heap_hub_of_le es c i) as (occ & -> & Hocc); [lia|]. cbn.
    destruct (select _ _ _) as [[]|] eqn:Hsel; cbn; [| |done]; intros [= <-].
    + right. cbn.
      assert (st = true) as -> by (by destruct (occurred occ), st).
      split_and!; [done..|]. rewrite Hs. apply prefix_drop_take.
    + unfold sub_inv_from. cbn.
      assert (occurred occ = true) as Ho
        by (by destruct (occurred occ), st, p).
      destruct (Hocc Ho) as [Hlt _]. split_and!; [done..|lia|lia|done].
  - intros (Hd & -> & Hi & Hs).
    assert (i ≤ length es) as Hi'
      by (rewrite length_signalled in Hi; destruct c; lia).
    destruct (heap_hub_of_le es c i Hi') as (occ & Hh & Hocc).
    rewrite Hh. cbn [mbind option_bind].
    assert (select true st p = Some true ∧ st = true ∨
            select true st p = Some false) as [[-> ->]| ->]
      by (destruct st, p; cbn; auto); cbn [mbind option_bind].
    + intros [= <-]. right. cbn.
      split_and!; [done..|]. rewrite Hs. apply prefix_drop_take.
    + rewrite Hd. intros [= <-]. unfold sub_inv_from. cbn.
      assert (occurred occ = true) as Ho.
      { destruct (es !! i) as [e|] eqn:He.
        - rewrite (heap_hub_of_lt _ _ _ _ He) in Hh. by injection Hh as <-.
        - apply lookup_ge_None in He. assert (i = length es) as -> by lia.
          rewrite heap_hub_of_last in Hh. injection Hh as <-. cbn.
          rewrite length_signalled in Hi. destruct c; [done|lia]. }
      destruct (Hocc Ho) as [_ Hv].
      split_and!; [done|lia|lia|].
      rewrite Hs, (take_S_r _ _ _ Hv), drop_app_le; [done|].
      rewrite length_take. lia.
  - done.
  - done.
Qed.

(** One action keeps the relation, for the hub it leads to. *)
Lemma act_inv_from k a es c (σ : @system V) :
  hub σ = hub_of es c → sub_inv_from k es c (stop σ) (sub σ) →
  ∃ σ' es' c', act a σ = Some σ' ∧ hub σ' = hub_of es' c' ∧
               sub_inv_from k es' c' (stop σ') (sub σ').
Proof.
  intros Hh Hs. destruct a as [[e|]|p|]; cbn [act do_call].
  - rewrite Hh. destruct c.
    + rewrite EmitEvent_closed by done. by eexists _, es, true.
    + rewrite EmitEvent_open. eexists _, (es ++ [e]), false.
      split_and!; [done..|]. cbn.
      eapply sub_inv_from_grow; [..|exact Hs].
      * exists [e]. unfold signalled. by rewrite app_nil_r.
      * rewrite length_app. lia.
  - rewrite Hh, Close_hub_of. eexists _, es, true.
    split_and!; [done..|]. cbn. destruct c; [done|].
    eapply sub_inv_from_grow; [..|exact Hs]; [by exists [None]|done].
  - destruct (Subscribe_step _ _ _ _) as [s'|] eqn:Hstep.
    + eexists _, es, c. split_and!; [done..|]. cbn.
      rewrite Hh in Hstep. by eapply sub_inv_from_step.
    + by exists σ, es, c.
  - eexists _, es, c. split_and!; [done..|]. cbn.
    by eapply sub_inv_from_stop.
Qed.

Lemma run_inv_from k sched : ∀ es c (σ : @system V),
  hub σ = hub_of es c → sub_inv_from k es c (stop σ) (sub σ) →
  ∃ σ' es' c', run sched σ = Some σ' ∧ hub σ' = hub_of es' c' ∧
               sub_inv_from k es' c' (stop σ') (sub σ').
Proof.
  induction sched as [|a sched IH]; intros es c σ Hh Hs.
  - by exists σ, es, c.
  - destruct (act_inv_from k a es c σ Hh Hs) as (σ1 & es1 & c1 & Ha & Hh1 & Hs1).
    destruct (IH es1 c1 σ1 Hh1 Hs1) as (σ' & es' & c' & Hr & Hh' & Hs').
    exists σ', es', c'. cbn [run]. by rewrite Ha.
Qed.


Lemma sub_inv_from_attach k es0 :
  k ≤ length es0 →
  sub_inv_from k es0 false false (@subscribe_from V k).
Proof.
  intros Hk. unfold sub_inv_from. cbn.
  split_and!; [done..|rewrite length_signalled; lia|].
  by rewrite drop_ge by (rewrite length_take; lia).
Qed.

(** The run of a schedule from a hub with the events [es0], with the
    events and the closing the schedule adds. *)
Lemma run_late k es0 sched :
  k ≤ length es0 →
  ∃ σ : @system V,
    run sched (attach_to (hub_of es0 false) k) = Some σ ∧
    hub σ = hub_of (es0 ++ accepted (calls_of sched)) (closes (calls_of sched)) ∧
    stop σ = negb (never_stopped sched) ∧
    sub_inv_from k (es0 ++ accepted (calls_of sched)) (closes (calls_of sched))
      (stop σ) (sub σ).
Proof.
  intros Hk.
  destruct (run_inv_from k sched es0 false (attach_to (hub_of es0 false) k))
    as (σ & es & c & Hr & Hh & Hs); [done|by apply sub_inv_from_attach|].
  destruct (run_hub_calls _ _ _ Hr) as [Hcalls Hstop].
  cbn [hub stop attach_to] in Hcalls, Hstop.
  rewrite do_calls_hub_of, Hh in Hcalls.
  assert (hub_of (es0 ++ accepted (calls_of sched)) (closes (calls_of sched))
          = hub_of es c) as Heq by congruence.
  apply hub_of_inj in Heq as [<- <-]. by exists σ.
Qed.

Lemma sub_inv_from_prefix k es c st (s : @subscriber V) :
  sub_inv_from k es c st s →
  sent (dest s) `prefix_of` drop k (signalled es c).
Proof.
  unfold sub_inv_from. destruct (at_pc s).
  - intros (_ & _ & ->). apply prefix_drop_take.
  - intros (_ & _ & _ & ->). apply prefix_drop_take.
  - intros (_ & _ & _ & ->). apply prefix_drop_take.
  - by intros [(_ & _ & ->)|(_ & _ & ?)].
  - done.
Qed.

Lemma late_subscriber_prefix k es0 sched :
  k ≤ length es0 →
  ∃ σ : @system V,
    run sched (attach_to (hub_of es0 false) k) = Some σ ∧
    hub σ = hub_of (es0 ++ accepted (calls_of sched)) (closes (calls_of sched)) ∧
    sent (dest (sub σ))
    `prefix_of` drop k (signalled (es0 ++ accepted (calls_of sched))
                                  (closes (calls_of sched))).
Proof.
  intros Hk. destruct (run_late k es0 sched Hk) as (σ & Hr & Hh & _ & Hs).
  exists σ. split_and!; [done..|]. by eapply sub_inv_from_prefix.
Qed.


(** *** Cancellation *)

(** Once [stop] has fired and the selects pick it, an action sends
    nothing, and a step of the subscriber brings it closer to its
    return. *)
Lemma act_cancelled k a es c (σ : @system V) :
  hub σ = hub_of es c → stop σ = true →
  sub_inv_from k es c true (sub σ) →
  prefers_stop [a] = true →
  ∃ σ' es' c', act a σ = Some σ' ∧ hub σ' = hub_of es' c' ∧
               stop σ' = true ∧ sub_inv_from k es' c' true (sub σ') ∧
               sent (dest (sub σ')) = sent (dest (sub σ)) ∧
               steps_to_return (sub σ') + advances [a]
               ≤ max (steps_to_return (sub σ)) (advances [a]).
Proof.
  intros Hh Hst Hs Hp.
  destruct (act_inv_from k a es c σ Hh) as (σ' & es' & c' & Ha & Hh' & Hs');
    [by rewrite Hst|].
  exists σ', es', c'. split; [exact Ha|]. split; [exact Hh'|].
  clear Hh'. destruct a as [call|p|]; cbn in Ha, Hp |- *.
  - destruct (do_call call (hub σ)); cbn in Ha; [|done].
    injection Ha as <-. cbn in *. rewrite Hst in Hs'.
    split_and!; first [done|tauto|lia].
  - rewrite andb_true_r in Hp. subst p. rewrite Hst, Hh in Ha.
    unfold Subscribe_step, sub_inv_from, steps_to_return in *.
    destruct (at_pc (sub σ)) as [i|i a|i a| |] eqn:Hpc.
    + destruct Hs as (Hd & Hi & Hsent). rewrite length_events_hub_of in Ha.
      rewrite length_signalled in Hi. case_decide.
      * rewrite Hd in Ha. injection Ha as <-. cbn in *.
        split_and!; first [done|tauto|lia].
      * rewrite events_hub_of in Ha by lia. injection Ha as <-.
        cbn in *. split_and!; first [done|tauto|lia].
    + destruct Hs as (Hd & -> & Hi & Hsent).
      destruct (heap_hub_of_le es c i) as (occ & Ho & _); [lia|].
      rewrite Ho in Ha. cbn in Ha.
      assert (select (occurred occ) true true = Some true) as Hsel
        by (by destruct (occurred occ)).
      rewrite Hsel in Ha. injection Ha as <-. cbn in *.
      split_and!; first [done|tauto|lia].
    + destruct Hs as (Hd & -> & Hi & Hsent).
      destruct (heap_hub_of_le es c i) as (occ & Ho & _);
        [rewrite length_signalled in Hi; destruct c; lia|].
      rewrite Ho in Ha. injection Ha as <-. cbn in *.
      split_and!; first [done|tauto|lia].
    + injection Ha as <-. rewrite Hst, Hpc in Hs'. rewrite Hpc.
      split_and!; first [done|tauto|lia].
    + done.
  - injection Ha as <-. cbn in *. split_and!; first [done|tauto|lia].
Qed.

Lemma run_cancelled k sched : ∀ es c (σ : @system V),
  hub σ = hub_of es c → stop σ = true →
  sub_inv_from k es c true (sub σ) →
  prefers_stop sched = true →
  ∃ σ', run sched σ = Some σ' ∧
        at_pc (sub σ') ≠ Panicked ∧
        sent (dest (sub σ')) = sent (dest (sub σ)) ∧
        steps_to_return (sub σ') + advances sched
        ≤ max (steps_to_return (sub σ)) (advances sched).
Proof.
  induction sched as [|a sched IH]; intros es c σ Hh Hst Hs Hp.
  - exists σ. cbn. split_and!; [done| |done|lia].
    intros Hpc. unfold sub_inv_from in Hs. by rewrite Hpc in Hs.
  - assert (prefers_stop [a] = true ∧ prefers_stop sched = true) as [Hpa Hps].
    { destruct a as [?|[]|]; cbn in Hp |- *; done. }
    destruct (act_cancelled k a es c σ Hh Hst Hs Hpa)
      as (σ1 & es1 & c1 & Ha & Hh1 & Hst1 & Hs1 & Hsent1 & Hn1).
    destruct (IH es1 c1 σ1 Hh1 Hst1 Hs1 Hps) as (σ' & Hr & Hnp & Hsent & Hn).
    exists σ'. cbn [run]. rewrite Ha. cbn [mbind option_bind].
    split_and!; [done..|congruence|].
    destruct a; cbn in Hn1 |- *; lia.
Qed.

(** X2.  Cancellation.  Whatever ran before, once [stop] has fired and
    the selects pick the stop case, the subscriber has returned after two
    of its own steps at the latest, however the producer's calls are
    interleaved with them, and nothing has been sent since [stop]
    fired. *)
Theorem cancelled_subscriber_returns
    (es0 : list (@Event V)) (k : nat) (before after : list (@action V)) :
  k ≤ length es0 → prefers_stop after = true → 2 ≤ advances after →
  ∃ h0 σ1 σ2,
    do_calls (CallEmit <$> es0) NewHub = Some h0 ∧
    run before (attach_to h0 k) = Some σ1 ∧
    run (FireStop :: after) σ1 = Some σ2 ∧
    at_pc (sub σ2) = Returned ∧
    sent (dest (sub σ2)) = sent (dest (sub σ1)).
Proof.
  intros Hk Hp Hn. exists (hub_of es0 false).
  destruct (run_late k es0 before Hk) as (σ1 & Hr1 & Hh1 & _ & Hs1).
  destruct (run_cancelled k after _ _
              {| hub := hub σ1; sub := sub σ1; stop := true |} Hh1 eq_refl)
    as (σ2 & Hr2 & Hnp & Hsent & Hsteps); [by eapply sub_inv_from_stop|done|].
  exists σ1, σ2. rewrite do_calls_NewHub, accepted_emits, closes_emits.
  split_and!; [done..| |done].
  cbn [sub] in Hsteps. unfold steps_to_return in Hsteps.
  destruct (at_pc (sub σ2)), (at_pc (sub σ1)); try done; lia.
Qed.

(** *** Subscribers next to each other *)

(** X3.  Two subscribers of one hub, each interleaved with the same
    producer calls in its own way and cancelled or not, agree: what the
    later joiner has been sent at a position is what the earlier one has
    been sent at the matching position. *)
Theorem subscribers_agree
    (es0 : list (@Event V)) (k1 k2 : nat) (sched1 sched2 : list (@action V)) :
  k1 ≤ k2 → k2 ≤ length es0 → calls_of sched1 = calls_of sched2 →
  ∃ h0 σ1 σ2,
    do_calls (CallEmit <$> es0) NewHub = Some h0 ∧
    run sched1 (attach_to h0 k1) = Some σ1 ∧
    run sched2 (attach_to h0 k2) = Some σ2 ∧
    hub σ1 = hub σ2 ∧
    ∀ j v1 v2,
      sent (dest (sub σ1)) !! (k2 - k1 + j) = Some v1 →
      sent (dest (sub σ2)) !! j = Some v2 →
      v1 = v2.
Proof.
  intros H12 H2 Hcalls.
  destruct (late_subscriber_prefix k1 es0 sched1) as (σ1 & Hr1 & Hh1 & Hp1);
    [lia|].
  destruct (late_subscriber_prefix k2 es0 sched2) as (σ2 & Hr2 & Hh2 & Hp2);
    [lia|].
  exists (hub_of es0 false), σ1, σ2.
  rewrite do_calls_NewHub, accepted_emits, closes_emits.
  rewrite Hcalls in Hh1, Hp1. split_and!; [done..|congruence|].
  intros j v1 v2 Hv1 Hv2.
  eapply prefix_lookup_Some in Hv1; [|exact Hp1].
  eapply prefix_lookup_Some in Hv2; [|exact Hp2].
  rewrite lookup_drop in Hv1, Hv2.
  replace (k1 + (k2 - k1 + j)) with (k2 + j) in Hv1 by lia. congruence.
Qed.

(** *** The log after any calls *)

(** X4.  Whatever sequence of [EmitEvent] and [Close] calls is made on a
    new hub, none panics, and the log then holds, in order, one signalled
    slot for each event emitted before the first [Close] and one last
    slot without an event, which is signalled iff [Close] was called;
    events emitted after a [Close] are nowhere in it.  The slots are
    pairwise distinct allocations. *)
Theorem log_after_any_calls (cs : list (@call V)) :
  ∃ h, do_calls cs NewHub = Some h ∧
       closed h = closes cs ∧
       log h = Some ((filled <$> accepted cs) ++
                     [{| event := None; occurred := closes cs |}]) ∧
       NoDup (events h) ∧
       length (heap h) = length (events h).
Proof.
  exists (hub_of (accepted cs) (closes cs)).
  rewrite do_calls_NewHub, log_hub_of. split_and!; [done..| |].
  - apply NoDup_seq.
  - cbn. rewrite length_app, length_fmap, length_seq. cbn. lia.
Qed.

(** *** Which offsets are admitted *)

(** X8.  On the hub any calls lead to, with [N] events in its log,
    [Subscribe] admits the offsets [0] to [N]: its first step takes the
    slot at the offset, to wait for it or deliver it.  Every offset from
    [N+1] on is turned away at once, the destination being closed with
    nothing sent, also on an open hub on which that event may still be
    emitted. *)
Theorem Subscribe_admits_offsets_in_log
    (cs : list (@call V)) (from : nat) (stop p : bool) :
  ∃ h, do_calls cs NewHub = Some h ∧
       Subscribe_step h stop p (subscribe_from from)
       = Some (if decide (from ≤ length (accepted cs)) then
                 {| at_pc := AwaitOccurred from from; dest := new_chan |}
               else
                 {| at_pc := Returned;
                    dest := {| sent := []; chan_closed := true |} |}).
Proof.
  exists (hub_of (accepted cs) (closes cs)). rewrite do_calls_NewHub.
  split; [done|]. unfold subscribe_from. case_decide.
  - by apply step_LoopHead_in.
  - apply step_LoopHead_out; [|done]. rewrite length_events_hub_of. lia.
Qed.

End late.

(** ** Late subscribers at concrete schedules *)


Lemma cancelled_subscriber_returns_witness :
  ∃ (h0 : @Hub string) σ1 σ2,
    do_calls (CallEmit <$> [Some "e1"]) NewHub = Some h0 ∧
    run [Advance false] (attach_to h0 0) = Some σ1 ∧
    run [FireStop; Advance true; Produce (CallEmit (Some "e2")); Advance true]
        σ1 = Some σ2 ∧
    at_pc (sub σ2) = Returned ∧
    sent (dest (sub σ2)) = sent (dest (sub σ1)).
Proof.
  apply (cancelled_subscriber_returns [Some "e1"] 0 [Advance false]
           [Advance true; Produce (CallEmit (Some "e2")); Advance true]).
  - cbn. lia.
  - reflexivity.
  - cbn. lia.
Defined.

Lemma subscribers_agree_witness :
  ∃ (h0 : @Hub string) σ1 σ2,
    do_calls (CallEmit <$> [Some "e1"; Some "e2"]) NewHub = Some h0 ∧
    run (replicate 6 (Advance false)) (attach_to h0 0) = Some σ1 ∧
    run (replicate 3 (Advance false)) (attach_to h0 1) = Some σ2 ∧
    sent (dest (sub σ1)) !! 1 = Some (Some "e2") ∧
    sent (dest (sub σ2)) !! 0 = Some (Some "e2").
Proof.
  destruct (subscribers_agree [Some "e1"; Some "e2"] 0 1
              (replicate 6 (Advance false)) (replicate 3 (Advance false)))
    as (h0 & σ1 & σ2 & H0 & H1 & H2 & _ & Hagree);
    [lia|cbn; lia|reflexivity|].
  exists h0, σ1, σ2. split; [exact H0|]. split; [exact H1|].
  split; [exact H2|].
  assert (sent (dest (sub σ1)) !! 1 = Some (Some "e2")) as Hv1.
  { vm_compute in H0. injection H0 as <-.
    vm_compute in H1. injection H1 as <-. reflexivity. }
  split; [exact Hv1|].
  destruct (sent (dest (sub σ2)) !! 0) as [v2|] eqn:Hv2.
  - f_equal. symmetry. exact (Hagree 0 _ _ Hv1 Hv2).
  - vm_compute in H0. injection H0 as <-.
    vm_compute in H2. injection H2 as <-. discriminate Hv2.
Defined.

End hub_facts.

(* ===================================================================== *)
(** * Facts about the check handler *)
(* ===================================================================== *)

Module check_facts.

Import check.

Section facts.

Context {error Input Resource Version : Type}.
Context (Error : error → string) (Input_Type : Input → string).
Context (Decode : string → result error Input).
Context (Encode : list Version → string).
Context `{!Tracker error Resource} `{!Checker error Input Resource Version}.

Abbreviation serve := (ServeHTTP Error Input_Type Decode Encode).

(** C9.  The handler, started on a fresh response writer.  A body that
    cannot be decoded: status 400, the error text as body, and no call on
    the tracker or on a resource.  [Init] fails: status 500 and the error
    text, after the one call of [Init].  [Check] fails: status 500 and the
    error text, the resource being released.  Otherwise: status 200 and
    the encoding of the versions [Check] returned, the resource being
    released. *)
Theorem C9_check_handler_responses (r_body : string) :
  let σ := snd (serve r_body fresh) in
  (∀ err, Decode r_body = Err err →
     response σ = (400, Error err) ∧ calls σ = []) ∧
  (∀ input err,
     Decode r_body = Ok input → Init (Input_Type input) = Err err →
     response σ = (500, Error err) ∧
     calls σ = [InitCall (Input_Type input)]) ∧
  (∀ input resource err,
     Decode r_body = Ok input → Init (Input_Type input) = Ok resource →
     Check resource input = Err err →
     response σ = (500, Error err) ∧
     calls σ = [InitCall (Input_Type input); CheckCall resource input;
                ReleaseCall resource]) ∧
  (∀ input resource versions,
     Decode r_body = Ok input → Init (Input_Type input) = Ok resource →
     Check resource input = Ok versions →
     response σ = (200, Encode versions) ∧
     calls σ = [InitCall (Input_Type input); CheckCall resource input;
                ReleaseCall resource]).
Proof.
  intros σ. subst σ.
  unfold ServeHTTP, defer, andThen, tracker_Init, resource_Check,
    tracker_Release, called, pure.
  split_and!.
  - intros err ->. done.
  - intros input err -> Hinit. cbn. rewrite Hinit. done.
  - intros input resource err -> Hinit Hcheck. cbn. rewrite Hinit. cbn.
    rewrite Hcheck. done.
  - intros input resource versions -> Hinit Hcheck. cbn. rewrite Hinit. cbn.
    rewrite Hcheck. done.
Qed.

End facts.

(** ** The handler on a concrete tracker *)

Lemma C9_witness :
  let serve := ServeHTTP id id example_decode example_encode in
  response (snd (serve "{" fresh)) = (400, "unexpected EOF") ∧
  response (snd (serve "svn" fresh)) = (500, "unknown resource type") ∧
  response (snd (serve "time" fresh)) = (500, "check failed") ∧
  response (snd (serve "git" fresh)) = (200, "[v1,v2]").
Proof.
  pose proof (C9_check_handler_responses id id example_decode example_encode)
    as H.
  split_and!.
  - apply (H "{"). reflexivity.
  - apply (proj1 (proj2 (H "svn")) "svn"); reflexivity.
  - apply (proj1 (proj2 (proj2 (H "time"))) "time" 2); reflexivity.
  - apply (proj2 (proj2 (proj2 (H "git"))) "git" 1 ["v1"; "v2"]%string);
      reflexivity.
Defined.

Section logging.

Context {error Input Resource Version : Type}.
Context (Error : error → string) (Input_Type : Input → string).
Context (Decode : string → result error Input).
Context (Encode : list Version → string).
Context `{!Tracker error Resource} `{!Checker error Input Resource Version}.

(** X5.  Every request is answered with status 200, 400 or 500, and the
    log tells which.  With status 200 no error has been logged.  With
    status 400 or 500 exactly one error has been logged, the one whose
    text is the response body: under ["malformed-request"] for a 400,
    with no call made on the tracker, and under ["failed-to-init"] or
    ["failed-to-check"] for a 500. *)
Theorem ServeHTTP_logs_what_it_answers (r_body : string) :
  let σ := snd (ServeHTTP Error Input_Type Decode Encode r_body fresh) in
  (fst (response σ) = 200 ∧ logged_errors σ = []) ∨
  (∃ action err,
     logged_errors σ = [(action, err)] ∧ snd (response σ) = Error err ∧
     ((fst (response σ) = 400 ∧ action = "malformed-request" ∧
       calls σ = []) ∨
      (fst (response σ) = 500 ∧
       (action = "failed-to-init" ∨ action = "failed-to-check")))).
Proof.
  intros σ. subst σ.
  unfold ServeHTTP, defer, andThen, tracker_Init, resource_Check,
    tracker_Release, called, pure.
  destruct (Decode r_body) as [input|err]; cbn.
  - destruct (Init (Input_Type input)) as [resource|err]; cbn.
    + destruct (Check resource input) as [versions|err]; cbn.
      * by left.
      * right. exists "failed-to-check", err. split_and!; [done..|].
        right. split; [done|by right].
    + right. exists "failed-to-init", err. split_and!; [done..|].
      right. split; [done|by left].
  - right. exists "malformed-request", err. split_and!; [done..|].
    by left.
Qed.

End logging.

End check_facts.

(* ===================================================================== *)
(** * Facts about the build orchestration *)
(* ===================================================================== *)

Module builder_facts.

Import builder.

Section facts.

Context {error handle Output Version : Type}.
Context `{!@Capabilities error handle Output Version}.

Abbreviation trace := (list (@effect handle Output Version)).



Lemma drain_exit_status stream (t : trace) :
  fst (drain stream t) = exit_status stream.
Proof.
  revert t. induction stream as [|[source data|status] stream IH]; intros t;
    [done| |done].
  cbn. unfold andThen, perform. apply IH.
Qed.

Lemma extract_outputs_succeed h outputs (t : trace) :
  outputs_succeed h outputs = true →
  fst (extract_outputs h outputs t) = None.
Proof.
  revert t. induction outputs as [|o outputs IH]; intros t; [done|].
  cbn. destruct (Out h o) as [vs|e]; [|done]. intros Hrest.
  unfold andThen, perform.
  destruct (emit_versions vs _) as [[] t']. by apply IH.
Qed.





Ltac run_io :=
  unfold Build, pipeline, defer, andThen, perform, pure; cbn [fst snd].

(** C2, amended.  The pair [Build] returns.  A failed source fetch,
    container creation, copy-in or process spawn gives [(false, e)] with
    the step's own error [e].  A process that exits with a status other
    than zero gives [(false, nil)].  A process that exits with status zero
    gives [(true, nil)] when extracting the configured outputs does not
    fail. *)
Theorem C2_outcome_axes (build : @builds_Build Output) :
  let r := fst (Build build []) in
  let src fetched := with_trailing_separator fetched in
  let dst := with_trailing_separator (Path (Source build)) in
  let spec := {| ProcessSpec_Script := Script build |} in
  (∀ e, Fetch (Source build) = Err e → r = Some (false, Some e)) ∧
  (∀ fetched e,
     Fetch (Source build) = Ok fetched → Create (Image build) = Err e →
     r = Some (false, Some e)) ∧
  (∀ fetched h e,
     Fetch (Source build) = Ok fetched → Create (Image build) = Ok h →
     CopyIn h (src fetched) dst = Some e →
     r = Some (false, Some e)) ∧
  (∀ fetched h e,
     Fetch (Source build) = Ok fetched → Create (Image build) = Ok h →
     CopyIn h (src fetched) dst = None → Run h spec = Err e →
     r = Some (false, Some e)) ∧
  (∀ fetched h pid stream status,
     Fetch (Source build) = Ok fetched → Create (Image build) = Ok h →
     CopyIn h (src fetched) dst = None → Run h spec = Ok (pid, stream) →
     exit_status stream = Some status → status ≠ 0%N →
     r = Some (false, None)) ∧
  (∀ fetched h pid stream,
     Fetch (Source build) = Ok fetched → Create (Image build) = Ok h →
     CopyIn h (src fetched) dst = None → Run h spec = Ok (pid, stream) →
     exit_status stream = Some 0%N →
     outputs_succeed h (Outputs build) = true →
     r = Some (true, None)).
Proof.
  intros r src dst spec. subst r src dst spec. split_and!.
  - intros e Hf. run_io. by rewrite Hf.
  - intros fetched e Hf Hc. run_io. by rewrite Hf, Hc.
  - intros fetched h e Hf Hc Hi. run_io. by rewrite Hf, Hc, Hi.
  - intros fetched h e Hf Hc Hi Hr. run_io. by rewrite Hf, Hc, Hi, Hr.
  - intros fetched h pid stream status Hf Hc Hi Hr Hx Hnz. run_io.
    rewrite Hf, Hc, Hi, Hr.
    match goal with |- context [drain stream ?t] =>
      pose proof (drain_exit_status stream t) as Hd;
      destruct (drain stream t) as [x t'] end.
    cbn [fst] in Hd. rewrite Hd, Hx. by destruct status.
  - intros fetched h pid stream Hf Hc Hi Hr Hx Ho. run_io.
    rewrite Hf, Hc, Hi, Hr.
    match goal with |- context [drain stream ?t] =>
      pose proof (drain_exit_status stream t) as Hd;
      destruct (drain stream t) as [x t'] end.
    cbn [fst] in Hd. rewrite Hd, Hx.
    pose proof (extract_outputs_succeed h (Outputs build) t' Ho) as He.
    destruct (extract_outputs h (Outputs build) t') as [f t''].
    cbn [fst] in He. by rewrite He.
Qed.


End facts.

(** ** The claims on the collaborators of [builder_test.go] *)

(** C2 as stated fails: every step succeeds and the process exits with
    status 0, yet [Build] returns a non-nil error, because extracting the
    configured output fails. *)
Lemma C2_counterexample :
  @Fetch _ _ _ _ (fakes None 0) (Source (test_build ["broken"]))
  = Ok "/path/on/disk"%string ∧
  @Create _ _ _ _ (fakes None 0) "some-image-name" = Ok "some-handle"%string ∧
  @CopyIn _ _ _ _ (fakes None 0) "some-handle" "/path/on/disk/"
    "some/source/path/" = None ∧
  (∃ stream,
     @Run _ _ _ _ (fakes None 0) "some-handle"
       {| ProcessSpec_Script := "./bin/test" |} = Ok (42, stream) ∧
     exit_status stream = Some 0%N) ∧
  snd <$> fst (@Build _ _ _ _ (fakes None 0) (test_build ["broken"]) [])
  = Some (Some "out failed"%string) ∧
  fst (@Build _ _ _ _ (fakes None 0) (test_build ["broken"]) [])
  ≠ Some (true, None).
Proof.
  split_and!; try reflexivity.
  - eexists. split; reflexivity.
  - discriminate.
Qed.

Lemma C2_witness :
  let result failing status :=
    fst (@Build _ _ _ _ (fakes failing status) (test_build ["out"]) []) in
  result (Some AtFetch) 0%N = Some (false, Some "oh no!"%string) ∧
  result (Some AtCreate) 0%N = Some (false, Some "oh no!"%string) ∧
  result (Some AtCopyIn) 0%N = Some (false, Some "oh no!"%string) ∧
  result (Some AtRun) 0%N = Some (false, Some "oh no!"%string) ∧
  result None 2%N = Some (false, None) ∧
  result None 0%N = Some (true, None).
Proof.
  intros result. subst result. split_and!.
  - destruct (@C2_outcome_axes _ _ _ _ (fakes (Some AtFetch) 0)
                (test_build ["out"])) as (H & _).
    apply H. reflexivity.
  - destruct (@C2_outcome_axes _ _ _ _ (fakes (Some AtCreate) 0)
                (test_build ["out"])) as (_ & H & _).
    apply (H "/path/on/disk"%string); reflexivity.
  - destruct (@C2_outcome_axes _ _ _ _ (fakes (Some AtCopyIn) 0)
                (test_build ["out"])) as (_ & _ & H & _).
    apply (H "/path/on/disk"%string "some-handle"%string); reflexivity.
  - destruct (@C2_outcome_axes _ _ _ _ (fakes (Some AtRun) 0)
                (test_build ["out"])) as (_ & _ & _ & H & _).
    apply (H "/path/on/disk"%string "some-handle"%string); reflexivity.
  - destruct (@C2_outcome_axes _ _ _ _ (fakes None 2)
                (test_build ["out"])) as (_ & _ & _ & _ & H & _).
    eapply (H "/path/on/disk"%string "some-handle"%string);
      [reflexivity..|discriminate].
  - destruct (@C2_outcome_axes _ _ _ _ (fakes None 0)
                (test_build ["out"])) as (_ & _ & _ & _ & _ & H).
    eapply (H "/path/on/disk"%string "some-handle"%string); reflexivity.
Defined.


End builder_facts.

(* ===================================================================== *)
(** * Facts about the primed process stream *)
(* ===================================================================== *)

Module builder_test_facts.

Import builder_test.

Section facts.

Context {A : Type}.

Lemma send_all_fits (payloads : list A) : ∀ buf cap,
  length buf + length payloads ≤ cap →
  send_all payloads {| buffer := buf; capacity := cap; is_closed := false |}
  = Done {| buffer := buf ++ payloads; capacity := cap; is_closed := false |}.
Proof.
  induction payloads as [|x payloads IH]; intros buf cap Hcap.
  - by rewrite app_nil_r.
  - cbn [send_all]. unfold send. cbn [is_closed buffer capacity].
    cbn [length] in Hcap. case_decide; [|lia].
    rewrite IH by (rewrite length_app; cbn; lia).
    by rewrite <- app_assoc.
Qed.

Lemma receives_buffered (payloads : list A) : ∀ cap n,
  receives (length payloads + n)
    {| buffer := payloads; capacity := cap; is_closed := true |}
  = Done ((Some <$> payloads) ++ replicate n None).
Proof.
  induction payloads as [|x payloads IH]; intros cap n.
  - cbn [length plus fmap list_fmap app]. induction n as [|n IHn]; [done|].
    cbn [receives]. unfold receive. cbn [buffer is_closed].
    by rewrite IHn.
  - cbn [length plus receives]. unfold receive. cbn [buffer capacity is_closed].
    by rewrite IH.
Qed.

(** X6.  [primedStream] never blocks and never panics, whatever the
    payloads, none included: it returns a closed channel whose buffer
    holds exactly the payloads, in order.  A reader of that channel
    receives the payloads in order and from then on only the closed
    channel's zero value; it never blocks either. *)
Theorem primedStream_yields_payloads_then_closed (payloads : list A) (n : nat) :
  ∃ stream,
    primedStream payloads = Done stream ∧
    buffer stream = payloads ∧ is_closed stream = true ∧
    receives (length payloads + n) stream
    = Done ((Some <$> payloads) ++ replicate n None).
Proof.
  exists {| buffer := payloads; capacity := length payloads;
            is_closed := true |}.
  unfold primedStream, make. rewrite send_all_fits by (cbn; lia).
  split_and!; [done..|]. apply receives_buffered.
Qed.

End facts.

End builder_test_facts.

(* ===================================================================== *)
(** * Facts about the resource type configuration *)
(* ===================================================================== *)

Module main_facts.

Import main.

Lemma range_loop_appends (visited : list (string * string)) : ∀ config,
  foldl (λ config entry,
           config ++ [{| Name := fst entry; Image := snd entry |}])
        config visited
  = config ++ ((λ entry, {| Name := fst entry; Image := snd entry |})
               <$> visited).
Proof.
  induction visited as [|entry visited IH]; intros config; cbn.
  - by rewrite app_nil_r.
  - rewrite IH, <- app_assoc. done.
Qed.

Lemma resourceTypesConfig_fmap (visited : list (string * string)) :
  resourceTypesConfig visited
  = (λ entry, {| Name := fst entry; Image := snd entry |}) <$> visited.
Proof. unfold resourceTypesConfig. by rewrite range_loop_appends. Qed.

(** X7.  Whatever order the range over the map takes, the configuration
    holds a resource type of name [typ] and image [image] exactly when
    the map sends [typ] to [image]; no name occurs twice; there are as
    many resource types as the map has entries; and two orders give the
    same configuration up to the order of its elements. *)
Theorem resourceTypesConfig_is_the_map
    (m : gmap string string) (visited visited' : list (string * string)) :
  ranges_over m visited → ranges_over m visited' →
  (∀ typ image,
     {| Name := typ; Image := image |} ∈ resourceTypesConfig visited
     ↔ m !! typ = Some image) ∧
  NoDup (Name <$> resourceTypesConfig visited) ∧
  length (resourceTypesConfig visited) = size m ∧
  resourceTypesConfig visited ≡ₚ resourceTypesConfig visited'.
Proof.
  unfold ranges_over. intros Hv Hv'. rewrite !resourceTypesConfig_fmap.
  split_and!.
  - intros typ image. rewrite list_elem_of_fmap. split.
    + intros ([typ' image'] & [= -> ->] & Hin).
      rewrite Hv in Hin. by apply elem_of_map_to_list in Hin.
    + intros Hm. exists (typ, image). split; [done|].
      rewrite Hv. by apply elem_of_map_to_list.
  - rewrite <- list_fmap_compose.
    change (NoDup (fst <$> visited)).
    rewrite Hv. apply NoDup_fst_map_to_list.
  - rewrite length_fmap, Hv. apply length_map_to_list.
  - by rewrite Hv, Hv'.
Qed.

(** The default value of the [resourceTypes] flag, decoded. *)
Lemma resourceTypesConfig_is_the_map_witness :
  let m : gmap string string :=
    {[ "git" := "winston/git-resource"; "raw" := "winston/raw-resource" ]}%string in
  {| Name := "raw"; Image := "winston/raw-resource" |}
    ∈ resourceTypesConfig (map_to_list m) ∧
  length (resourceTypesConfig (map_to_list m)) = 2.
Proof.
  intros m.
  destruct (resourceTypesConfig_is_the_map m (map_to_list m) (map_to_list m))
    as (Hin & _ & Hlen & _); [by unfold ranges_over..|].
  split.
  - apply Hin. subst m. rewrite lookup_insert_ne by done.
    apply lookup_singleton_eq.
  - rewrite Hlen. subst m.
    rewrite map_size_insert_None by (by rewrite lookup_singleton_ne).
    by rewrite map_size_singleton.
Defined.

End main_facts.
